(** * The install planner of npm's multi-stage installer

    A shallow embedding of [lib/install/deps.js] (the dependency loader and
    the lockfile inflater) and of the driver in [lib/install.js].

    The JavaScript code works on a graph of mutable tree nodes linked by
    [parent], [children] and [requiredby] references.  Here the graph is a
    heap: a list of node records, a reference being an index into it, and
    a new node the next index.  Package records and their [requested]
    descriptors are values: the fetcher is taken to hand out a fresh record
    at each call, so that the descriptor a node adopts is not shared with
    another node.

    Functions written in continuation-passing style are modelled in direct
    style: the value of a function is the argument list that reaches its
    callback, together with the heap and the log once its work is done.  An
    uncaught exception and a walk that does not end are outcomes of their
    own. *)

From stdpp Require Import base option list strings sorting.
From Stdlib Require Import Lia.

Open Scope string_scope.
Open Scope list_scope.

(** ** Data model *)

(** A reference to a tree node. *)
Abbreviation addr := nat.

(** The [requested] descriptor of a resolved package record. *)
Record request := Request { spec : string; type : string }.

(** One entry of a pinned dependency map:
    [{ version : ..., dependencies : { name : entry, ... } }]. *)
#[warnings="-register-all"]
Inductive swentry : Type :=
| SwEntry (sw_version : string) (sw_dependencies : option (list (string * swentry))).

(** A pinned dependency map, its entries in the order of [Object.keys]. *)
Definition swdeps := list (string * swentry).

(** A package record.  Every field may be missing: the driver gives an
    unpackaged root the record [{}]. [shrinkwrap] is the embedded lockfile,
    whose own [dependencies] member may be missing as well. *)
Record pkgrecord := Package {
  name : option string;
  version : option string;
  requested : option request;
  shrinkwrap : option (option swdeps);
  dependencies : option (list (string * string));
  optionalDependencies : option (list (string * string));
  devDependencies : option (list (string * string));
}.

(** The record [{}]. *)
Definition emptyPackage : pkgrecord :=
  Package None None None None None None None.

(** A tree node.  [parent] is [None] for [null] and for a missing member,
    [requiredby] is [None] when the member is missing, [loaded] is [false]
    when it is missing. *)
Record node := Node {
  package : pkgrecord;
  children : list addr;
  parent : option addr;
  requiredby : option (list addr);
  loaded : bool;
  path : string;
  realpath : string;
}.

Definition set_package (p : pkgrecord) (n : node) : node :=
  Node p (children n) (parent n) (requiredby n) (loaded n) (path n) (realpath n).
Definition set_children (c : list addr) (n : node) : node :=
  Node (package n) c (parent n) (requiredby n) (loaded n) (path n) (realpath n).
Definition set_parent (p : option addr) (n : node) : node :=
  Node (package n) (children n) p (requiredby n) (loaded n) (path n) (realpath n).
Definition set_requiredby (r : option (list addr)) (n : node) : node :=
  Node (package n) (children n) (parent n) r (loaded n) (path n) (realpath n).
Definition set_loaded (b : bool) (n : node) : node :=
  Node (package n) (children n) (parent n) (requiredby n) b (path n) (realpath n).

Definition set_requested (r : option request) (p : pkgrecord) : pkgrecord :=
  Package (name p) (version p) r (shrinkwrap p) (dependencies p)
          (optionalDependencies p) (devDependencies p).

(** An error value handed to a callback. *)
Record error := Error { message : string; stack : string; code : string }.

(** What reaches the log. *)
Inductive logline :=
| Warn (prefix : string) (text : list string)
| Verbose (prefix : string) (text : list string).

(** The mutable world of the loader: the node heap and the log. *)
Record state := State { heap : list node; log : list logline }.

Definition set_heap (h : list node) (s : state) : state := State h (log s).
Definition add_log (l : logline) (s : state) : state := State (heap s) (log s ++ [l]).

(** ** Outcomes *)

(** A JavaScript computation returns, throws an uncaught exception, or does
    not terminate within the fuel it was given. *)
Inductive outcome (A : Type) : Type :=
| Ret (a : A)
| Throw (msg : string)
| Diverge.
Arguments Ret {A} a.
Arguments Throw {A} msg.
Arguments Diverge {A}.

(** The arguments of a node-style callback: [cb(er)] or [cb(null, a)]. *)
Inductive cbargs (A : Type) : Type :=
| CbErr (er : error)
| CbOk (a : A).
Arguments CbErr {A} er.
Arguments CbOk {A} a.

(** An asynchronous function in direct style: the world when the callback
    is invoked, and the callback's arguments. *)
Definition async (A : Type) : Type := outcome (state * cbargs A).

Definition obind {A B} (m : outcome A) (k : A -> outcome B) : outcome B :=
  match m with
  | Ret a => k a
  | Throw msg => Throw msg
  | Diverge => Diverge
  end.

Notation "x <~ m ; k" := (obind m (fun x => k))
  (at level 100, m at next level, right associativity).

(** Dereferencing: a dangling reference is a [TypeError]. *)
Definition deref (h : list node) (a : addr) : outcome node :=
  match h !! a with
  | Some n => Ret n
  | None => Throw "TypeError"
  end.

Fixpoint derefAll (h : list node) (l : list addr) : outcome (list (addr * node)) :=
  match l with
  | [] => Ret []
  | a :: l' =>
      n <~ deref h a;
      r <~ derefAll h l';
      Ret ((a, n) :: r)
  end.

(** ** External collaborators

    The fetcher, [semver], [path] and [add-parent-to-errors] are consumed
    through their interfaces only. *)
Class Collaborators := {
  (** [semver.satisfies(version, range)] on two strings. *)
  satisfies : string -> string -> bool;
  (** [fetchPackageMetadata(spec, where, cb)]: the arguments of [cb]. *)
  fetchPackageMetadata : string -> string -> cbargs pkgrecord;
  (** [path.join(a, "node_modules", name)]. *)
  path_join : string -> string -> string -> string;
  (** [path.resolve(a, "node_modules", name)]. *)
  path_resolve : string -> string -> string -> string;
  (** The change [addParentToErrors(tree, cb)] makes to an error on its way
      to [cb]. *)
  addParentToErrors : node -> error -> error;
}.

(** [semver.satisfies] answers [false] when the version or the range is
    [undefined]. *)
Definition semver_satisfies `{Collaborators} (v r : option string) : bool :=
  match v, r with
  | Some v, Some r => satisfies v r
  | _, _ => false
  end.

(** ** Walking up the tree *)

(** [child.package.name === name] *)
Definition nameMatch (nm : option string) (child : node) : bool :=
  bool_decide (name (package child) = nm).

(** [semver.satisfies(child.package.version, version)] *)
Definition versionMatch `{Collaborators} (range : option string) (child : node) : bool :=
  semver_satisfies (version (package child)) range.

(** [requirementExists(tree, name, version)]: the node that already meets
    the requirement, or [None] for [null]. *)
Fixpoint requirementExists `{Collaborators} (fuel : nat) (h : list node) (tree : addr)
    (nm range : option string) : outcome (option addr) :=
  match fuel with
  | O => Diverge
  | S fuel' =>
      t <~ deref h tree;
      if nameMatch nm t then
        Ret (if versionMatch range t then Some tree else None)
      else
        kids <~ derefAll h (children t);
        match filter (fun c => nameMatch nm c.2 = true) kids with
        | (_ :: _) as matches =>
            match filter (fun c => versionMatch range c.2 = true) matches with
            | m :: _ => Ret (Some m.1)
            | [] => Ret None
            end
        | [] =>
            match parent t with
            | None => Ret None
            | Some p => requirementExists fuel' h p nm range
            end
        end
  end.

(** [earliestInstallable(tree, name, log)]: walk as far up the tree as
    possible to find a place to install [name]. *)
Fixpoint earliestInstallable (fuel : nat) (h : list node) (tree : addr)
    (nm : option string) : outcome (option addr) :=
  match fuel with
  | O => Diverge
  | S fuel' =>
      t <~ deref h tree;
      if nameMatch nm t then Ret (Some tree)
      else
        kids <~ derefAll h (children t);
        match filter (fun c => nameMatch nm c.2 = true) kids with
        | _ :: _ => Ret None
        | [] =>
            match parent t with
            | None => Ret (Some tree)
            | Some p =>
                r <~ earliestInstallable fuel' h p nm;
                Ret (Some (default tree r))
            end
        end
  end.

(** ** slide's [asyncMap]

    [asyncMap(list, fn, cb)] starts [fn] on every element and calls [cb]
    once every element has called back, with the first error that was
    reported.  An error does not stop the other elements.  The callbacks of
    the elements interleave as their I/O completes; the model takes the
    schedule in which all the work of one element is done before the
    callback of the next element runs, in the order of the list. *)
Definition asyncMap {A : Type} (fn : A -> state -> outcome (state * option error))
    : list A -> state -> outcome (state * option error) :=
  fix go (l : list A) (s : state) : outcome (state * option error) :=
    match l with
    | [] => Ret (s, None)
    | a :: l' =>
        r1 <~ fn a s;
        r2 <~ go l' r1.1;
        Ret (r2.1, match r1.2 with Some er => Some er | None => r2.2 end)
    end.

(** [cb(er)] when there is an error, [cb(null)] otherwise. *)
Definition cbOf (er : option error) : cbargs (option addr) :=
  match er with Some er => CbErr er | None => CbOk None end.

(** ** The lockfile inflater *)

(** The body that [inflateShrinkwrap] runs for the entry [name : sw] of the
    pinned map.  A fetch error makes no child and reaches the callback (the
    source hands it to the callback of the whole call, not to the one of
    [asyncMap]; the other entries are inflated all the same); otherwise the
    child is pushed onto [tree.children] and the pinned sub-dependencies,
    when there are any, are inflated below it.  The child gets no [parent]
    member. *)
Fixpoint inflateEntry `{Collaborators} (tree : addr) (nm : string) (sw : swentry)
    (s : state) {struct sw} : outcome (state * option error) :=
  match sw with
  | SwEntry ver deps =>
      t <~ deref (heap s) tree;
      match fetchPackageMetadata (nm +:+ "@" +:+ ver) (path t) with
      | CbErr er => Ret (s, Some er)
      | CbOk pkg =>
          match name pkg with
          | None => Throw "TypeError"
          | Some pname =>
              let child := length (heap s) in
              let c := {| package := pkg;
                          children := [];
                          parent := None;
                          requiredby := Some [tree];
                          loaded := true;
                          path := path_join (path t) "node_modules" pname;
                          realpath := path_resolve (realpath t) "node_modules" pname |} in
              let h1 := heap s ++ [c] in
              let h2 := <[tree := set_children (children t ++ [child]) t]> h1 in
              let s' := set_heap h2 s in
              match deps with
              | Some d => asyncMap (fun e => inflateEntry child e.1 e.2) d s'
              | None => Ret (s', None)
              end
          end
      end
  end.

(** [inflateShrinkwrap(tree, swdeps, cb)].  Nodes always carry a [children]
    array here, so the guard [if (!tree.children)] has nothing to do. *)
Definition inflateShrinkwrap `{Collaborators} (tree : addr) (sw : swdeps) (s : state)
    : outcome (state * option error) :=
  asyncMap (fun e => inflateEntry tree e.1 e.2) sw s.

(** ** Placement *)

(** The two assignments that merge the [requested] descriptor of the
    resolved record into the existing node [child] (a descriptor built from
    a missing version would hold [undefined], which differs from every
    string and concatenates as the text "undefined"). *)
Definition appendSpec (mine theirs : request) : request :=
  if bool_decide (spec mine = spec theirs) then mine
  else Request (spec mine +:+ " " +:+ spec theirs) "range".

Definition mergeRequested `{Collaborators} (child : pkgrecord) (rq : request) : request :=
  match requested child with
  | Some mine => appendSpec mine rq
  | None =>
      if semver_satisfies (version child) (Some (spec rq)) then appendSpec rq rq
      else match version child with
           | Some v => appendSpec (Request v "version") rq
           | None => Request ("undefined" +:+ " " +:+ spec rq) "range"
           end
  end.

(** [child.requiredby] after [tree] has been noted in it. *)
Definition noteRequiredby (tree : addr) (rb : option (list addr)) : list addr :=
  let l := default [] rb in
  if bool_decide (filter (fun a => a = tree) l = []) then l ++ [tree] else l.

(** The range that [addChild] looks for: [pkg.requested.spec], or
    [pkg.version] when the spec is empty. *)
Definition rangeOf (pkg : pkgrecord) (rq : request) : option string :=
  if bool_decide (spec rq = "") then version pkg else Some (spec rq).

(** What [addChild] does to the node [c] that already meets the
    requirement: merge the [requested] descriptors and note the interest of
    [tree] in [requiredby]. *)
Definition noteInterest `{Collaborators} (tree : addr) (rq : request) (c : node) : node :=
  set_requiredby (Some (noteRequiredby tree (requiredby c)))
    (set_package (set_requested (Some (mergeRequested (package c) rq)) (package c)) c).

(** The end of both branches of [addChild]: a record that carries an
    embedded lockfile is inflated below [child] and the callback receives
    the outcome of that, without a node; otherwise the callback receives
    [child]. *)
Definition inflateOrReturn `{Collaborators} (tree child : addr) (pkg : pkgrecord)
    (s : state) : async (option addr) :=
  match shrinkwrap pkg with
  | Some (Some deps) =>
      r <~ inflateShrinkwrap child deps s;
      t' <~ deref (heap r.1) tree;
      Ret (r.1, cbOf (addParentToErrors t' <$> r.2))
  | _ => Ret (s, CbOk (Some child))
  end.

(** The node that [addChild] creates for [pkg], required by [tree], below
    the node [p] at [par]. *)
Definition newChild `{Collaborators} (tree par : addr) (p : node) (pkg : pkgrecord)
    (pname : string) : node :=
  {| package := pkg;
     children := [];
     parent := Some par;
     requiredby := Some [tree];
     loaded := true;
     path := path_join (path p) "node_modules" pname;
     realpath := path_resolve (realpath p) "node_modules" pname |}.

(** [addChild(spec, tree, log, cb)]: resolve a module spec and add it as a
    dependency to a tree.  The callback receives [(er)], [()] or
    [(null, child, log)]. *)
Definition addChild `{Collaborators} (fuel : nat) (sp : string) (tree : addr) (s : state)
    : async (option addr) :=
  t <~ deref (heap s) tree;
  match fetchPackageMetadata sp (path t) with
  | CbErr er => Ret (s, CbErr (addParentToErrors t er))
  | CbOk pkg =>
      match requested pkg with
      | None => Throw "TypeError"
      | Some rq =>
          found <~ requirementExists fuel (heap s) tree (name pkg) (rangeOf pkg rq);
          match found with
          | Some child =>
              (* the requirement is already met by the tree *)
              c <~ deref (heap s) child;
              let c1 := noteInterest tree rq c in
              if loaded c then
                Ret (set_heap (<[child := c1]> (heap s)) s, CbOk None)
              else
                inflateOrReturn tree child pkg
                  (set_heap (<[child := set_loaded true c1]> (heap s)) s)
          | None =>
              (* we need to resolve the requirement ourselves *)
              place <~ earliestInstallable fuel (heap s) tree (name pkg);
              let par := default tree place in
              p <~ deref (heap s) par;
              let child := length (heap s) in
              let h1 := <[par := set_children (children p ++ [child]) p]> (heap s) in
              match name pkg with
              | None => Throw "TypeError"
              | Some pname =>
                  inflateOrReturn tree child pkg
                    (set_heap (h1 ++ [newChild tree par p pkg pname]) s)
              end
          end
      end
  end.

(** ** The dependency loaders *)

(** [obj && obj[key]] for a map from names to ranges: the value found, when
    it is truthy.  A JavaScript object holds each key once; the list holds
    its entries in the order of [Object.keys]. *)
Fixpoint member (key : string) (entries : list (string * string)) : option string :=
  match entries with
  | [] => None
  | e :: rest => if bool_decide (e.1 = key) then Some e.2 else member key rest
  end.

Definition truthy (obj : option (list (string * string))) (key : string) : bool :=
  match obj with
  | None => false
  | Some entries =>
      match member key entries with
      | Some v => negb (bool_decide (v = ""))
      | None => false
      end
  end.

(** [asCbWithCb(depLoader, cb)] applied to the arguments of [addChild]'s
    callback: chain a dependency loader on to a callback. *)
Definition asCbWithCb (depLoader : option addr -> state -> outcome (state * option error))
    (r : state * cbargs (option addr)) : outcome (state * option error) :=
  match r.2 with
  | CbErr er => Ret (r.1, Some er)
  | CbOk child => depLoader child r.1
  end.

(** [warnOnError(log, cb)] applied to the arguments [(er)]. *)
Definition warnOnError (r : state * option error) : state * option error :=
  match r.2 with
  | Some er =>
      (add_log (Verbose "install" [stack er])
         (add_log (Warn "install" ["Couldn't install optional dependency:"; message er]) r.1),
       None)
  | None => (r.1, None)
  end.

(** The body that [loadDeps] runs for the entry [dep : version] of the
    dependencies of [tree], whose node record is [t]; [depLoader] is
    [loadDeps] itself. *)
Definition loadDep `{Collaborators}
    (depLoader : option addr -> state -> outcome (state * option error))
    (depth : nat) (tree : addr) (t : node) (d : string * string) (s : state)
    : outcome (state * option error) :=
  r <~ addChild depth (d.1 +:+ "@" +:+ d.2) tree s;
  r' <~ asCbWithCb depLoader r;
  Ret (if truthy (optionalDependencies (package t)) d.1 then warnOnError r' else r').

(** [loadDeps(tree, log, cb)]: load any missing dependencies in the given
    tree.  [fuel] bounds the depth of the dependency graph that is
    followed, [depth] the walks up the tree. *)
Fixpoint loadDeps `{Collaborators} (fuel depth : nat) (tree : option addr) (s : state)
    : outcome (state * option error) :=
  match tree with
  | None => Ret (s, None)
  | Some tr =>
      match fuel with
      | O => Diverge
      | S fuel' =>
          t <~ deref (heap s) tr;
          match dependencies (package t) with
          | None => Ret (s, None)
          | Some deps => asyncMap (loadDep (loadDeps fuel' depth) depth tr t) deps s
          end
      end
  end.

(** [loadArgs(args, tree, log, cb)]: add a list of args to tree's top level
    dependencies. *)
Definition loadArgs `{Collaborators} (fuel depth : nat) (args : list string) (tree : addr)
    (s : state) : outcome (state * option error) :=
  asyncMap (fun sp s =>
      r <~ addChild depth sp tree s;
      asCbWithCb (loadDeps fuel depth) r)
    args s.

(** [child.parent = null], remembering the link in [realParent]. *)
Definition detach (child : addr) (s : state) : outcome (option addr * state) :=
  c <~ deref (heap s) child;
  Ret (parent c, set_heap (<[child := set_parent None c]> (heap s)) s).

(** [child.parent = realParent] *)
Definition reattach (child : addr) (realParent : option addr) (s : state) : outcome state :=
  c <~ deref (heap s) child;
  Ret (set_heap (<[child := set_parent realParent c]> (heap s)) s).

(** The body that [loadDevDeps] runs for the entry [dep : version] of the
    dev dependencies of [tree], whose node record is [t]. *)
Definition loadDevDep `{Collaborators} (fuel depth : nat) (tree : addr) (t : node)
    (d : string * string) (s : state) : outcome (state * option error) :=
  if truthy (dependencies (package t)) d.1 then Ret (s, None)
  else
    r <~ addChild depth (d.1 +:+ "@" +:+ d.2) tree s;
    match r.2 with
    | CbErr er => Ret (r.1, Some er)
    | CbOk None => Throw "TypeError"
    | CbOk (Some child) =>
        detached <~ detach child r.1;
        let realParent := detached.1 in
        r2 <~ loadDeps fuel depth (Some child) detached.2;
        match r2.2 with
        | Some er => Ret (r2.1, Some er)
        | None =>
            s' <~ reattach child realParent r2.1;
            Ret (s', None)
        end
    end.

(** [loadDevDeps(tree, log, cb)]: load development dependencies into the
    given tree. *)
Definition loadDevDeps `{Collaborators} (fuel depth : nat) (tree : option addr) (s : state)
    : outcome (state * option error) :=
  match tree with
  | None => Ret (s, None)
  | Some tr =>
      t <~ deref (heap s) tr;
      match devDependencies (package t) with
      | None => Ret (s, None)
      | Some devs => asyncMap (loadDevDep fuel depth tr t) devs s
      end
  end.

(** ** The driver, [lib/install.js] *)

(** The configuration flags the driver reads with [npm.config.get]. *)
Record config := Config {
  global : bool;
  dev : bool;
  production : bool;
  npat : bool;
}.

(** The bound actors that the driver hands to slide's [chain]:
    [[fn, arg, ...]].  An argument [chain.last] is not written: the actor
    takes it from the results collected so far. *)
Inductive step :=
| Lock (dir nm : string)
| Unlock (dir nm : string)
| Rimraf (dir : string)
| Mkdir (dir : string)
| ReadPackageTree (where_ : string)
| ReadLocalPackageData (where_ : string)
| DebugTree (label : string)
| LoadShrinkwrap
| ThenInstall (node_modules staging : string) (args : list string)
| LoadDeps (tree : addr)
| LoadArgs (args : list string) (tree : addr)
| LoadDevDeps (tree : addr)
| ValidateTree (tree : addr)
| DiffTrees (currentTree idealTree : addr)
| DecomposeActions
| DebugActions (label : string)
| DoParallel (phase staging : string)
| DoSerial (phase staging : string)
| Action (hook : string) (dir : string) (tree : addr).

(** A value a step passes on through [chain]: a tree, or the pair
    [{currentTree, idealTree}]. *)
Inductive value :=
| VTree (tree : addr)
| VTrees (currentTree idealTree : addr).

(** What an observer of a run sees: an actor being called by [chain], and
    the action of one entry of the plan being started and finished. *)
Inductive event :=
| Call (f : step)
| Start (phase : string) (n : addr)
| Finish (phase : string) (n : addr).

(** The world of the driver: the trees and the log, the action list [todo],
    the results [chain] has collected, and the events so far. *)
Record world := World {
  st : state;
  todo : list (string * addr);
  res : list value;
  trace : list event;
}.

Definition set_st (s : state) (w : world) : world := World s (todo w) (res w) (trace w).
Definition set_todo (t : list (string * addr)) (w : world) : world :=
  World (st w) t (res w) (trace w).
Definition push_res (v : value) (w : world) : world :=
  World (st w) (todo w) (res w ++ [v]) (trace w).
Definition emit (evs : list event) (w : world) : world :=
  World (st w) (todo w) (res w) (trace w ++ evs).

(** The collaborators of the driver.  [ext] tells whether a call to a
    collaborator reports an error, given the events up to that call;
    [readPackageTree] puts the tree found on disk into the heap; [dup] is
    the clone [JSON.parse(JSON.stringify(tree))], by its effect on the
    heap; [resolvesTo a where] is [path.resolve(a) === where]; [diffTrees]
    and [decomposeActions] give the actions they add to the plan and the
    plan they turn it into; [entryResult] tells whether the action of one
    entry of the plan fails; [completion] is the order in which the entries
    of a parallel phase complete, a permutation of them. *)
Class Driver := {
  ext : list event -> step -> option error;
  readPackageTree : string -> list node -> list node * addr;
  dup : list node -> addr -> list node * addr;
  resolvesTo : string -> string -> bool;
  diffTrees : list node -> addr -> addr -> list (string * addr);
  decomposeActions : list (string * addr) -> list (string * addr);
  entryResult : string -> addr -> option error;
  completion : string -> list addr -> list addr;
  completion_perm : forall phase l, completion phase l ≡ₚ l;
}.

(** The entries of the plan that belong to a phase. *)
Definition entriesOf (phase : string) (plan : list (string * addr)) : list addr :=
  (filter (fun a => a.1 = phase) plan).*2.

(** The first error among the entries, in the given order. *)
Fixpoint firstError `{Driver} (phase : string) (l : list addr) : option error :=
  match l with
  | [] => None
  | n :: rest =>
      match entryResult phase n with
      | Some er => Some er
      | None => firstError phase rest
      end
  end.

(** Modelled from the spec: [doParallel] of [lib/install/actions.js], which
    is not among the sources.  Every entry of the phase is started; the
    entries complete in an order that is the scheduler's choice; the
    callback receives the first error reported. *)
Definition doParallel `{Driver} (phase : string) (w : world) : world * option error :=
  let es := entriesOf phase (todo w) in
  let done := completion phase es in
  (emit (map (Start phase) es ++ map (Finish phase) done) w, firstError phase done).

(** Modelled from the spec: [doSerial] of [lib/install/actions.js], which
    is not among the sources.  The entries of the phase run one after the
    other, in the order of the plan, up to the first error. *)
Fixpoint serialRun `{Driver} (phase : string) (l : list addr) (w : world)
    : world * option error :=
  match l with
  | [] => (w, None)
  | n :: rest =>
      let w1 := emit [Start phase n; Finish phase n] w in
      match entryResult phase n with
      | Some er => (w1, Some er)
      | None => serialRun phase rest w1
      end
  end.

Definition doSerial `{Driver} (phase : string) (w : world) : world * option error :=
  serialRun phase (entriesOf phase (todo w)) w.

(** [chain.last] *)
Definition chainLast (w : world) : option value := last (res w).

(** [readLocalPackageData(where, currentTree, cb)] *)
Definition readLocalPackageData `{Collaborators} (where_ : string) (currentTree : addr)
    (s : state) : async addr :=
  t <~ deref (heap s) currentTree;
  let store pkg := set_heap (<[currentTree := set_package pkg t]> (heap s)) s in
  match fetchPackageMetadata "." where_ with
  | CbErr er =>
      if bool_decide (code er = "ENOPACKAGEJSON")
      then Ret (store emptyPackage, CbOk currentTree)
      else Ret (s, CbErr er)
  | CbOk pkg => Ret (store pkg, CbOk currentTree)
  end.

(** [loadShrinkwrap(currentTree, cb)]: the callback always receives
    [{currentTree, idealTree}], also when inflating reported an error. *)
Definition loadShrinkwrap `{Collaborators} `{Driver} (currentTree : addr) (s : state)
    : outcome (state * (addr * addr)) :=
  let cloned := dup (heap s) currentTree in
  let idealTree := cloned.2 in
  let s1 := set_heap cloned.1 s in
  i <~ deref (heap s1) idealTree;
  match shrinkwrap (package i) with
  | Some (Some deps) =>
      r <~ inflateShrinkwrap idealTree deps s1;
      Ret (r.1, (currentTree, idealTree))
  | _ => Ret (s1, (currentTree, idealTree))
  end.

(** The part of [thenInstall] that runs before the steps are built: if the
    user ran [npm install] the versions in [idealTree] are ignored. *)
Definition resetIdeal (args : list string) (idealTree : addr) (s : state) : outcome state :=
  i <~ deref (heap s) idealTree;
  if negb (bool_decide (is_Some (shrinkwrap (package i)))) && bool_decide (length args = 0)
  then Ret (set_heap (<[idealTree := set_children [] i]> (heap s)) s)
  else Ret s.

(** [cond && [fn, ...]]: the actor, or a falsy value that [chain] skips. *)
Definition when (cond : bool) (f : step) : option step :=
  if cond then Some f else None.

(** The array [steps] of [thenInstall], holes included. *)
Definition steps (cfg : config) (node_modules staging : string) (args : list string)
    (currentTree idealTree : addr) (idealRealpath : string) : list (option step) :=
  let hasArgs := negb (bool_decide (length args = 0)) in
  let dev_ := dev cfg || negb (production cfg) in
  [ Some (Mkdir staging)
  ; Some (LoadDeps idealTree)
  ; None
  ; when hasArgs (LoadArgs args idealTree)
  ; when dev_ (LoadDevDeps idealTree)
  ; Some (ValidateTree idealTree)
  ; None
  ; Some (DiffTrees currentTree idealTree)
  ; Some DecomposeActions
  ; Some (DebugActions "decomposeActions")
  ; Some (DoParallel "fetch" staging)
  ; Some (DoParallel "extract" staging)
  ; Some (DoParallel "preinstall" staging)
  ; Some (DoParallel "build" staging)
  ; Some (DoParallel "remove" staging)
  ; Some (DoSerial "finalize" staging)
  ; Some (DoSerial "install" staging)
  ; Some (DoSerial "postinstall" staging)
  ; when (npat cfg) (DoParallel "test" staging)
  ; Some (Rimraf staging)
  ; Some (Unlock node_modules ".staging")
  ; when (negb hasArgs) (Action "preinstall" idealRealpath idealTree)
  ; when (negb hasArgs) (Action "build" idealRealpath idealTree)
  ; when (negb hasArgs) (Action "postinstall" idealRealpath idealTree)
  ; when (negb hasArgs && npat cfg) (Action "test" idealRealpath idealTree)
  ; when (negb (production cfg)) (Action "prepublish" idealRealpath idealTree)
  ].

(** A call to a collaborator that only succeeds or fails. *)
Definition external `{Driver} (f : step) (w : world) : world * option error :=
  (w, ext (trace w) f).

(** Lifting a loader, which works on the trees, to the world. *)
Definition onTrees (w : world) (r : outcome (state * option error))
    : outcome (world * option error) :=
  x <~ r; Ret (set_st x.1 w, x.2).

(** What an actor does once [chain] has called it. *)
Definition run `{Collaborators} `{Driver} (fuel depth : nat) (f : step) (w : world)
    : outcome (world * option error) :=
  match f with
  | LoadDeps tree => onTrees w (loadDeps fuel depth (Some tree) (st w))
  | LoadArgs args tree => onTrees w (loadArgs fuel depth args tree (st w))
  | LoadDevDeps tree => onTrees w (loadDevDeps fuel depth (Some tree) (st w))
  | DiffTrees c i =>
      Ret (external f (set_todo (todo w ++ diffTrees (heap (st w)) c i) w))
  | DecomposeActions => Ret (external f (set_todo (decomposeActions (todo w)) w))
  | DoParallel phase _ => Ret (doParallel phase w)
  | DoSerial phase _ => Ret (doSerial phase w)
  | ReadPackageTree where_ =>
      match ext (trace w) f with
      | Some er => Ret (w, Some er)
      | None =>
          let r := readPackageTree where_ (heap (st w)) in
          Ret (push_res (VTree r.2) (set_st (set_heap r.1 (st w)) w), None)
      end
  | ReadLocalPackageData where_ =>
      match chainLast w with
      | Some (VTree currentTree) =>
          r <~ readLocalPackageData where_ currentTree (st w);
          match r.2 with
          | CbErr er => Ret (set_st r.1 w, Some er)
          | CbOk tree => Ret (push_res (VTree tree) (set_st r.1 w), None)
          end
      | _ => Throw "TypeError"
      end
  | LoadShrinkwrap =>
      match chainLast w with
      | Some (VTree currentTree) =>
          r <~ loadShrinkwrap currentTree (st w);
          Ret (push_res (VTrees r.2.1 r.2.2) (set_st r.1 w), None)
      | _ => Throw "TypeError"
      end
  | _ => Ret (external f w)
  end.

(** slide's [chain(things, cb)]: the actors run one after the other, a
    falsy element is skipped, and the first error ends the chain. *)
Definition chain (runner : step -> world -> outcome (world * option error))
    : list (option step) -> world -> outcome (world * option error) :=
  fix LOOP (things : list (option step)) (w : world) : outcome (world * option error) :=
    match things with
    | [] => Ret (w, None)
    | None :: rest => LOOP rest w
    | Some f :: rest =>
        r <~ runner f (emit [Call f] w);
        match r.2 with
        | Some er => Ret (r.1, Some er)
        | None => LOOP rest r.1
        end
    end.

(** [thenInstall(node_modules, staging, args, T, cb)] *)
Definition thenInstall `{Collaborators} `{Driver} (cfg : config) (fuel depth : nat)
    (node_modules staging : string) (args : list string) (T : addr * addr) (w : world)
    : outcome (world * option error) :=
  s1 <~ resetIdeal args T.2 (st w);
  i <~ deref (heap s1) T.2;
  chain (run fuel depth)
        (steps cfg node_modules staging args T.1 T.2 (realpath i))
        (set_todo [] (set_st s1 w)).

(** [unlockCB(path, name, cb)] applied to the arguments [(er1)].  The
    identifier [namej] is bound nowhere, so the statement that would log an
    unlock failure after a primary error throws a [ReferenceError]
    instead. *)
Definition unlockCB `{Driver} (dir nm : string) (r : world * option error)
    : outcome (world * option error) :=
  let u := external (Unlock dir nm) (emit [Call (Unlock dir nm)] r.1) in
  match r.2 with
  | Some er1 =>
      match u.2 with
      | Some er2 => Throw "ReferenceError: namej is not defined"
      | None => Ret (u.1, Some er1)
      end
  | None =>
      match u.2 with
      | Some er2 => Ret (u.1, Some er2)
      | None => Ret (u.1, None)
      end
  end.

(** [install(where, args, cb)].  [node_modules] and [staging] are the paths
    [path.resolve(where, "node_modules")] and
    [path.resolve(node_modules, ".staging")].  The last actor of the chain,
    [[thenInstall, node_modules, staging, args, chain.last]], is written
    after the chain of the six actors before it.  The progress check that
    [beforeCb] puts in front of the callback only prints. *)
Definition install `{Collaborators} `{Driver} (cfg : config) (fuel depth : nat)
    (where_ node_modules staging : string) (args : list string) (w : world)
    : outcome (world * option error) :=
  let args := if global cfg then args
              else filter (fun a => resolvesTo a where_ = false) args in
  r <~ chain (run fuel depth)
         [ Some (Lock node_modules ".staging")
         ; Some (Rimraf staging)
         ; Some (ReadPackageTree where_)
         ; Some (ReadLocalPackageData where_)
         ; Some (DebugTree "RPT")
         ; Some LoadShrinkwrap ] w;
  match r.2 with
  | Some er => unlockCB node_modules ".staging" r
  | None =>
      match chainLast r.1 with
      | Some (VTrees c i) =>
          let w1 := emit [Call (ThenInstall node_modules staging args)] r.1 in
          r2 <~ thenInstall cfg fuel depth node_modules staging args (c, i) w1;
          unlockCB node_modules ".staging" r2
      | _ => Throw "TypeError"
      end
  end.

(** ** Vocabulary of the statements *)

(** Every reference in a [children] array points into the heap. *)
Definition closed (h : list node) : Prop :=
  Forall (fun n => Forall (fun c => c < length h) (children n)) h.

(** The children of a node, each with its record. *)
Definition kids (h : list node) (n : node) : list (addr * node) :=
  omap (fun c => pair c <$> h !! c) (children n).

(** The children of a node that bear the name [nm], and those among them
    whose version satisfies [range]. *)
Definition namesakes (h : list node) (nm : option string) (n : node) : list (addr * node) :=
  filter (fun c => nameMatch nm c.2 = true) (kids h n).

Definition satisfying `{Collaborators} (range : option string) (l : list (addr * node))
    : list (addr * node) :=
  filter (fun c => versionMatch range c.2 = true) l.

(** The node at [a] neither bears the name [nm] nor has a child that does:
    a walk up the tree passes it. *)
Definition passes (h : list node) (nm : option string) (a : addr) : Prop :=
  exists n, h !! a = Some n /\ nameMatch nm n = false /\ namesakes h nm n = [].

(** [ancestry h t up]: [up] lists [t], its parent, and so on up to a node
    without parent. *)
Inductive ancestry (h : list node) : addr -> list addr -> Prop :=
| ancestry_root t n :
    h !! t = Some n -> parent n = None -> ancestry h t [t]
| ancestry_step t n p up :
    h !! t = Some n -> parent n = Some p -> ancestry h p up -> ancestry h t (t :: up).

(** What [requirementExists] answers at the node where its walk stops. *)
Definition answerAt `{Collaborators} (h : list node) (nm range : option string)
    (a : addr) (n : node) : option addr :=
  if nameMatch nm n then (if versionMatch range n then Some a else None)
  else fst <$> head (satisfying range (namesakes h nm n)).



(** The lifecycle hook that an actor runs against the root package. *)
Definition hookOf (f : step) : option string :=
  match f with
  | Action hook _ _ => Some hook
  | _ => None
  end.

(** The events of the entries of the plan, without the calls of actors. *)
Definition isCall (e : event) : bool :=
  match e with Call _ => true | _ => false end.

Definition entryEvents (evs : list event) : list event :=
  filter (fun e => isCall e = false) evs.


(** The phases, in the order the spec lists them. *)
Definition phaseList : list string :=
  [ "fetch"; "extract"; "preinstall"; "build"; "remove"
  ; "finalize"; "install"; "postinstall"; "test" ].



(** What a parallel phase shows: every entry of the phase started, then the
    entries finished in the order the scheduler chose. *)
Definition parallelBlock `{Driver} (phase : string) (plan : list (string * addr))
    : list event :=
  map (Start phase) (entriesOf phase plan)
    ++ map (Finish phase) (completion phase (entriesOf phase plan)).

(** What a serial phase shows: each entry of the phase started and
    finished before the next, in the order of the plan. *)
Definition serialBlock (phase : string) (plan : list (string * addr)) : list event :=
  flat_map (fun n => [Start phase n; Finish phase n]) (entriesOf phase plan).


(** The events of the entries that an actor shows when it runs the plan. *)
Definition blockOf `{Driver} (plan : list (string * addr)) (f : step) : list event :=
  match f with
  | DoParallel phase _ => parallelBlock phase plan
  | DoSerial phase _ => serialBlock phase plan
  | _ => []
  end.

(** The actors that leave the plan as it is, and those that run a phase. *)
Definition keepsPlan (f : step) : bool :=
  match f with
  | DiffTrees _ _ | DecomposeActions => false
  | _ => true
  end.

Definition isPhase (f : step) : bool :=
  match f with
  | DoParallel _ _ | DoSerial _ _ => true
  | _ => false
  end.





(** Every node of [h] is still there in [h'], with the same parent link
    and with the children it had, in front of those it gained. *)
Definition keepsTree (h h' : list node) : Prop :=
  forall a n,
    h !! a = Some n ->
    exists n', h' !! a = Some n' /\ parent n' = parent n /\
               children n `prefix_of` children n'.

(** ** A registry and a tree to run the functions on *)

Definition demo_pkg (nm ver sp ty : string) (deps : option (list (string * string)))
    (sw : option (option swdeps)) : pkgrecord :=
  Package (Some nm) (Some ver) (Some (Request sp ty)) sw deps None None.

(** What the registry answers, by spec.  [d] depends on [x@9.], which does
    not exist; [e] depends on [x@2.]; the record for [x@1.0] embeds a
    lockfile that pins [x@2.0.0]. *)
Definition demo_table : list (string * pkgrecord) :=
  [ ("x@1.", demo_pkg "x" "1.5.0" "1." "range" None None)
  ; ("x@2.", demo_pkg "x" "2.0.0" "2." "range" None None)
  ; ("x@2.0.0", demo_pkg "x" "2.0.0" "2.0.0" "version" None None)
  ; ("d@1.", demo_pkg "d" "1.0.0" "1." "range" (Some [("x", "9.")]) None)
  ; ("e@1.", demo_pkg "e" "1.0.0" "1." "range" (Some [("x", "2.")]) None)
  ; ("x@1.0", demo_pkg "x" "1.0.0" "1.0" "range" None
                (Some (Some [("x", SwEntry "2.0.0" None)])))
  ; ("a@1.0.0", demo_pkg "a" "1.0.0" "1.0.0" "version" None None)
  ; ("b@1.0.0", demo_pkg "b" "1.0.0" "1.0.0" "version" None None)
  ; ("b@2.0.0", demo_pkg "b" "2.0.0" "2.0.0" "version" None None)
  ; ("c@1.0.0", demo_pkg "c" "1.0.0" "1.0.0" "version" None None) ].

Fixpoint demo_lookup (sp : string) (table : list (string * pkgrecord)) : cbargs pkgrecord :=
  match table with
  | [] => CbErr (Error ("404 Not Found: " +:+ sp) "" "E404")
  | e :: rest => if String.eqb e.1 sp then CbOk e.2 else demo_lookup sp rest
  end.

(** Collaborators for the runs below: a version satisfies a range when the
    range is a prefix of it. *)
Definition demo : Collaborators :=
  {| satisfies v r := String.prefix r v;
     fetchPackageMetadata sp _ := demo_lookup sp demo_table;
     path_join a b c := a +:+ "/" +:+ b +:+ "/" +:+ c;
     path_resolve a b c := a +:+ "/" +:+ b +:+ "/" +:+ c;
     addParentToErrors _ er := er |}.

Definition demo_node (p : pkgrecord) (ch : list addr) (par : option addr) (ld : bool)
    (pth : string) : node :=
  Node p ch par (Some []) ld pth pth.

Definition demo_installed (nm ver : string) : pkgrecord :=
  Package (Some nm) (Some ver) None None None None None.

(** The tree [root -> { x@1.0.0, a@1.0.0 -> { b@1.0.0 } }], the root being
    the node 0, [x] 1, [a] 2 and [b] 3. *)
Definition demo_heap : list node :=
  [ demo_node emptyPackage [1; 2] None true "/r"
  ; demo_node (demo_installed "x" "1.0.0") [] (Some 0) true "/r/node_modules/x"
  ; demo_node (demo_installed "a" "1.0.0") [3] (Some 0) true "/r/node_modules/a"
  ; demo_node (demo_installed "b" "1.0.0") [] (Some 2) true
              "/r/node_modules/a/node_modules/b" ].

Definition demo_state : state := State demo_heap [].



(** A root alone, with the given package record. *)
Definition demo_root (p : pkgrecord) : state :=
  State [demo_node p [] None true "/r"] [].

(** A manifest with the given dependencies, optional dependencies and dev
    dependencies. *)
Definition demo_manifest (deps opt devs : option (list (string * string))) : pkgrecord :=
  Package None None None None deps opt devs.

(** The current tree (node 0) and its clone, the ideal tree (node 1), of a
    project that depends on [x@1.] and has [x@1.0.0] on disk (nodes 2 and
    3). *)
Definition demo_project : state :=
  let root := demo_manifest (Some [("x", "1.")]) None None in
  State [ demo_node root [2] None true "/r"
        ; demo_node root [3] None true "/r"
        ; demo_node (demo_installed "x" "1.0.0") [] (Some 0) true "/r/node_modules/x"
        ; demo_node (demo_installed "x" "1.0.0") [] (Some 1) true "/r/node_modules/x" ]
        [].


Definition demo_config : config := Config false false false true.

(** The shape of the tree after a run: name, version, children and parent
    of every node, and what the callback received. *)
Definition shape {A} (r : outcome (state * A))
    : outcome (list (option string * option string * list addr * option addr) * A) :=
  x <~ r;
  Ret (map (fun n => (name (package n), version (package n), children n, parent n))
           (heap x.1), x.2).

(** Collaborators of the driver for the runs below: every call reports
    what [ext] says, the differ adds each child of the ideal root, the
    decomposer gives every action an entry in each phase, and the entries of
    a parallel phase complete in reverse order. *)
Definition demo_decompose (plan : list (string * addr)) : list (string * addr) :=
  flat_map (fun a => map (fun phase => (phase, a.2)) phaseList) plan.

Definition demo_diff (h : list node) (currentTree idealTree : addr) : list (string * addr) :=
  match h !! idealTree with
  | Some i => map (pair "add") (children i)
  | None => []
  end.

Definition demo_completion_perm (phase : string) (l : list addr) : rev l ≡ₚ l :=
  Permutation_sym (Permutation_rev l).

Definition demo_driver (ext : list event -> step -> option error) : Driver :=
  {| ext := ext;
     readPackageTree _ h := (h, 0);
     dup h a := (h ++ option_list (h !! a), length h);
     resolvesTo a w := String.eqb a w;
     diffTrees := demo_diff;
     decomposeActions := demo_decompose;
     entryResult _ _ := None;
     completion _ l := rev l;
     completion_perm := demo_completion_perm |}.

(** Every call succeeds. *)
Definition demo_ok : list event -> step -> option error := fun _ _ => None.

(** Every call succeeds but [unlock]. *)
Definition demo_unlock_fails : list event -> step -> option error :=
  fun _ f =>
    match f with
    | Unlock _ _ => Some (Error "EUNLOCK" "" "EUNLOCK")
    | _ => None
    end.

Definition demo_world (s : state) : world := World s [] [] [].

(** Tactics for the runs: a concrete heap is closed, a concrete chain of
    ancestors is the ancestry of its first node, and the walk passes
    concrete nodes. *)
Ltac closed_heap := unfold closed; refine (bool_decide_unpack _ _); vm_compute; exact I.

Ltac upward :=
  repeat (eapply ancestry_step; [reflexivity|reflexivity|]);
  eapply ancestry_root; reflexivity.

Ltac passing :=
  repeat constructor;
  (eexists; split; [reflexivity|split; vm_compute; reflexivity]).

(** ** Vocabulary of the further properties *)

(** [above h t a]: [a] is [t] or one of its ancestors. *)
Inductive above (h : list node) : addr -> addr -> Prop :=
| above_self t : above h t t
| above_parent t n p a :
    h !! t = Some n -> parent n = Some p -> above h p a -> above h t a.







(** Every call succeeds but [lock]. *)
Definition demo_lock_fails : list event -> step -> option error :=
  fun _ f =>
    match f with
    | Lock _ _ => Some (Error "EEXIST" "" "EEXIST")
    | _ => None
    end.




(** * Properties *)

(** ** Dereferencing in a closed heap *)

Lemma deref_Some (h : list node) a n : h !! a = Some n -> deref h a = Ret n.
Proof. intros E. unfold deref. by rewrite E. Qed.

Lemma derefAll_kids (h : list node) (l : list addr) :
  Forall (fun c => c < length h) l ->
  derefAll h l = Ret (omap (fun c => pair c <$> h !! c) l).
Proof.
  induction 1 as [|c l Hc _ IH]; [done|].
  destruct (lookup_lt_is_Some_2 h c Hc) as [n Hn].
  simpl. unfold deref at 1. rewrite Hn. simpl. rewrite IH. done.
Qed.

Lemma closed_lookup (h : list node) a n :
  closed h -> h !! a = Some n -> Forall (fun c => c < length h) (children n).
Proof. intros Hc Ha. exact (proj1 (Forall_lookup _ _) Hc a n Ha). Qed.

Lemma derefAll_children (h : list node) a n :
  closed h -> h !! a = Some n -> derefAll h (children n) = Ret (kids h n).
Proof. intros Hc Ha. apply derefAll_kids. eapply closed_lookup; eauto. Qed.

(** ** The two walks, read along the chain of ancestors *)

Lemma ancestry_head (h : list node) t up :
  ancestry h t up -> exists l, up = t :: l.
Proof. destruct 1; eauto. Qed.

Lemma requirementExists_stop `{Collaborators} (h : list node) nm range fuel a n :
  closed h -> h !! a = Some n ->
  nameMatch nm n = true \/ namesakes h nm n <> [] ->
  requirementExists (S fuel) h a nm range = Ret (answerAt h nm range a n).
Proof.
  intros Hc Ha Hstop. cbn [requirementExists].
  rewrite (deref_Some _ _ _ Ha). cbn [obind]. unfold answerAt.
  destruct (nameMatch nm n) eqn:En; [done|].
  rewrite (derefAll_children _ _ _ Hc Ha). cbn [obind].
  destruct Hstop as [?|Hne]; [done|].
  unfold namesakes in Hne. unfold satisfying, namesakes.
  destruct (filter _ (kids h n)) as [|m ms] eqn:Em; [done|].
  destruct (filter _ (m :: ms)) as [|m' ms']; done.
Qed.

Lemma requirementExists_pass `{Collaborators} (h : list node) nm range fuel a n :
  closed h -> h !! a = Some n ->
  nameMatch nm n = false -> namesakes h nm n = [] ->
  requirementExists (S fuel) h a nm range =
    match parent n with
    | None => Ret None
    | Some p => requirementExists fuel h p nm range
    end.
Proof.
  intros Hc Ha En Ek. cbn [requirementExists].
  rewrite (deref_Some _ _ _ Ha). cbn [obind]. rewrite En.
  rewrite (derefAll_children _ _ _ Hc Ha). cbn [obind].
  unfold namesakes in Ek. by rewrite Ek.
Qed.

(** The walk of [requirementExists] passes the nodes [pre] and stops at
    [a]. *)
Lemma requirementExists_walk `{Collaborators} (h : list node) nm range :
  closed h ->
  forall pre t up fuel a rest n,
    ancestry h t up -> up = pre ++ a :: rest -> length up <= fuel ->
    Forall (passes h nm) pre -> h !! a = Some n ->
    nameMatch nm n = true \/ namesakes h nm n <> [] ->
    requirementExists fuel h t nm range = Ret (answerAt h nm range a n).
Proof.
  intros Hc. induction pre as [|b pre IH]; intros t up fuel a rest n Hup -> Hf Hpre Ha Hstop.
  - destruct (ancestry_head _ _ _ Hup) as [l El]. simplify_list_eq.
    destruct fuel as [|fuel]; [simpl in Hf; lia|].
    by apply requirementExists_stop.
  - destruct (ancestry_head _ _ _ Hup) as [l El]. simplify_list_eq.
    apply Forall_cons in Hpre as [(m & Hm & En & Ek) Hpre].
    destruct fuel as [|fuel]; [simpl in Hf; lia|].
    rewrite (requirementExists_pass _ _ _ _ _ _ Hc Hm En Ek).
    inversion Hup as [? ? ? ? E|? n' p ? Hn' Hp Hup' E]; subst.
    + destruct pre; discriminate.
    + rewrite Hm in Hn'. injection Hn' as <-. rewrite Hp.
      eapply IH; eauto. simpl in Hf. lia.
Qed.

(** The walk of [requirementExists] passes every node up to the root. *)
Lemma requirementExists_root `{Collaborators} (h : list node) nm range :
  closed h ->
  forall up t fuel,
    ancestry h t up -> length up <= fuel -> Forall (passes h nm) up ->
    requirementExists fuel h t nm range = Ret None.
Proof.
  intros Hc. induction up as [|b up IH]; intros t fuel Hup Hf Hall.
  - inversion Hup.
  - apply Forall_cons in Hall as [(m & Hm & En & Ek) Hall].
    destruct fuel as [|fuel]; [simpl in Hf; lia|].
    inversion Hup as [? n' Hn' Hp|? n' p ? Hn' Hp Hup']; subst;
      rewrite (requirementExists_pass _ _ _ _ _ _ Hc Hm En Ek);
      rewrite Hm in Hn'; injection Hn' as <-; rewrite Hp; [done|].
    eapply IH; eauto. simpl in Hf. lia.
Qed.

Lemma earliestInstallable_named (h : list node) nm fuel a n :
  h !! a = Some n -> nameMatch nm n = true ->
  earliestInstallable (S fuel) h a nm = Ret (Some a).
Proof.
  intros Ha En. cbn [earliestInstallable].
  rewrite (deref_Some _ _ _ Ha). cbn [obind]. by rewrite En.
Qed.

Lemma earliestInstallable_conflict (h : list node) nm fuel a n :
  closed h -> h !! a = Some n ->
  nameMatch nm n = false -> namesakes h nm n <> [] ->
  earliestInstallable (S fuel) h a nm = Ret None.
Proof.
  intros Hc Ha En Hne. cbn [earliestInstallable].
  rewrite (deref_Some _ _ _ Ha). cbn [obind]. rewrite En.
  rewrite (derefAll_children _ _ _ Hc Ha). cbn [obind].
  unfold namesakes in Hne. by destruct (filter _ (kids h n)).
Qed.

Lemma earliestInstallable_pass (h : list node) nm fuel a n :
  closed h -> h !! a = Some n ->
  nameMatch nm n = false -> namesakes h nm n = [] ->
  earliestInstallable (S fuel) h a nm =
    match parent n with
    | None => Ret (Some a)
    | Some p => r <~ earliestInstallable fuel h p nm; Ret (Some (default a r))
    end.
Proof.
  intros Hc Ha En Ek. cbn [earliestInstallable].
  rewrite (deref_Some _ _ _ Ha). cbn [obind]. rewrite En.
  rewrite (derefAll_children _ _ _ Hc Ha). cbn [obind].
  unfold namesakes in Ek. by rewrite Ek.
Qed.

Lemma last_cons_default {A} (x : A) (l : list A) :
  last (x :: l) = Some (default x (last l)).
Proof. destruct l as [|y l]; [done|]. rewrite last_cons. by destruct (last (y :: l)). Qed.

(** The walk of [earliestInstallable] passes the nodes [pre] and stops at
    [a]: the answer is [a] when [a] bears the name, and otherwise the last
    node passed, if there is one. *)
Lemma earliestInstallable_walk (h : list node) nm :
  closed h ->
  forall pre t up fuel a rest n,
    ancestry h t up -> up = pre ++ a :: rest -> length up <= fuel ->
    Forall (passes h nm) pre -> h !! a = Some n ->
    nameMatch nm n = true \/ namesakes h nm n <> [] ->
    earliestInstallable fuel h t nm =
      Ret (if nameMatch nm n then Some a else last pre).
Proof.
  intros Hc. induction pre as [|b pre IH]; intros t up fuel a rest n Hup -> Hf Hpre Ha Hstop.
  - destruct (ancestry_head _ _ _ Hup) as [l El]. simplify_list_eq.
    destruct fuel as [|fuel]; [simpl in Hf; lia|].
    destruct (nameMatch nm n) eqn:En.
    + by apply earliestInstallable_named with n.
    + destruct Hstop as [?|Hne]; [done|]. by apply earliestInstallable_conflict with n.
  - destruct (ancestry_head _ _ _ Hup) as [l El]. simplify_list_eq.
    apply Forall_cons in Hpre as [(m & Hm & En & Ek) Hpre].
    destruct fuel as [|fuel]; [simpl in Hf; lia|].
    rewrite (earliestInstallable_pass _ _ _ _ _ Hc Hm En Ek).
    inversion Hup as [? ? ? ? E|? n' p ? Hn' Hp Hup' E]; subst.
    + destruct pre; discriminate.
    + rewrite Hm in Hn'. injection Hn' as <-. rewrite Hp.
      rewrite (IH p _ fuel a rest n Hup' eq_refl); [|simpl in Hf; lia|done..].
      cbn [obind]. rewrite last_cons_default. by destruct (nameMatch nm n).
Qed.

(** The walk of [earliestInstallable] passes every node: the answer is the
    root. *)
Lemma earliestInstallable_root (h : list node) nm :
  closed h ->
  forall up t fuel,
    ancestry h t up -> length up <= fuel -> Forall (passes h nm) up ->
    earliestInstallable fuel h t nm = Ret (last up).
Proof.
  intros Hc. induction up as [|b up IH]; intros t fuel Hup Hf Hall.
  - inversion Hup.
  - apply Forall_cons in Hall as [(m & Hm & En & Ek) Hall].
    destruct fuel as [|fuel]; [simpl in Hf; lia|].
    inversion Hup as [? n' Hn' Hp|? n' p ? Hn' Hp Hup']; subst;
      rewrite (earliestInstallable_pass _ _ _ _ _ Hc Hm En Ek);
      rewrite Hm in Hn'; injection Hn' as <-; rewrite Hp; [done|].
    rewrite (IH p fuel Hup'); [|simpl in Hf; lia|done].
    cbn [obind]. by rewrite last_cons_default.
Qed.

(** A walk up the tree either passes every node or stops somewhere. *)
Lemma walk_split (h : list node) nm t up :
  ancestry h t up ->
  Forall (passes h nm) up \/
  exists pre a rest n,
    up = pre ++ a :: rest /\ Forall (passes h nm) pre /\ h !! a = Some n /\
    (nameMatch nm n = true \/ namesakes h nm n <> []).
Proof.
  assert (Hnode : forall a n, h !! a = Some n ->
            passes h nm a \/ (nameMatch nm n = true \/ namesakes h nm n <> [])).
  { intros a n Ha. destruct (nameMatch nm n) eqn:En; [by right; left|].
    destruct (namesakes h nm n) eqn:Ek; [left; by exists n|right; by right]. }
  induction 1 as [t n Hn Hp|t n p up Hn Hp Hup IH].
  - destruct (Hnode t n Hn) as [Hpass|Hstop].
    + left. by constructor.
    + right. by exists [], t, [], n.
  - destruct (Hnode t n Hn) as [Hpass|Hstop].
    + destruct IH as [Hall|(pre & a & rest & m & -> & Hpre & Ha & Hs)].
      * left. by constructor.
      * right. exists (t :: pre), a, rest, m. repeat split; auto.
    + right. by exists [], t, up, n.
Qed.

Lemma earliestInstallable_valid (h : list node) nm fuel :
  forall t a, earliestInstallable fuel h t nm = Ret (Some a) -> is_Some (h !! a).
Proof.
  induction fuel as [|fuel IH]; intros t a; [done|]. cbn [earliestInstallable].
  unfold deref. destruct (h !! t) as [n|] eqn:Ht; [|done]. cbn [obind].
  destruct (nameMatch nm n); [intros [= <-]; eauto|].
  destruct (derefAll h (children n)) as [ks| |]; [|done..]. cbn [obind].
  destruct (filter _ ks); [|done].
  destruct (parent n) as [p|]; [|intros [= <-]; eauto].
  destruct (earliestInstallable fuel h p nm) as [[r|]| |] eqn:Er; [| |done..];
    cbn [obind]; intros [= <-]; cbn [default]; eauto.
Qed.

(** ** Placement of a new node *)

Lemma addChild_new_eq `{Collaborators} fuel sp T (s : state) t pkg rq pname place p :
  heap s !! T = Some t ->
  fetchPackageMetadata sp (path t) = CbOk pkg ->
  requested pkg = Some rq -> name pkg = Some pname ->
  requirementExists fuel (heap s) T (name pkg) (rangeOf pkg rq) = Ret None ->
  earliestInstallable fuel (heap s) T (name pkg) = Ret place ->
  heap s !! default T place = Some p ->
  addChild fuel sp T s =
    inflateOrReturn T (length (heap s)) pkg
      (set_heap (<[default T place := set_children (children p ++ [length (heap s)]) p]>
                   (heap s) ++ [newChild T (default T place) p pkg pname]) s).
Proof.
  intros HT Hf Hrq Hn Hre Hei Hp. unfold addChild.
  rewrite (deref_Some _ _ _ HT). cbn [obind]. rewrite Hf, Hrq, Hre. cbn [obind].
  rewrite Hei. cbn [obind]. rewrite (deref_Some _ _ _ Hp). cbn [obind].
  by rewrite Hn.
Qed.

(** C2, as amended.  When [addChild] at [T] finds no node that meets the
    requirement, it makes a new node [length (heap s)] and hangs it below
    the parent [P] that the walk from [T] upward determines: the walk
    passes the nodes that neither bear the name nor have a child bearing
    it; if it stops at a node bearing the name, [P] is that node; if it
    stops at a node with a child bearing the name, [P] is the last node
    passed, and [T] when none was passed; if it passes every node, [P] is
    the root. *)
Theorem addChild_parent_of_new `{Collaborators} fuel sp T (s : state) t pkg rq pname up :
  closed (heap s) ->
  heap s !! T = Some t ->
  fetchPackageMetadata sp (path t) = CbOk pkg ->
  requested pkg = Some rq -> name pkg = Some pname ->
  ancestry (heap s) T up -> length up <= fuel ->
  requirementExists fuel (heap s) T (name pkg) (rangeOf pkg rq) = Ret None ->
  exists P p,
    heap s !! P = Some p /\
    (forall pre a rest n,
        up = pre ++ a :: rest -> Forall (passes (heap s) (name pkg)) pre ->
        heap s !! a = Some n -> nameMatch (name pkg) n = true -> P = a) /\
    (forall pre a rest n,
        up = pre ++ a :: rest -> Forall (passes (heap s) (name pkg)) pre ->
        heap s !! a = Some n -> nameMatch (name pkg) n = false ->
        namesakes (heap s) (name pkg) n <> [] -> P = default T (last pre)) /\
    (Forall (passes (heap s) (name pkg)) up -> last up = Some P) /\
    addChild fuel sp T s =
      inflateOrReturn T (length (heap s)) pkg
        (set_heap (<[P := set_children (children p ++ [length (heap s)]) p]> (heap s)
                     ++ [newChild T P p pkg pname]) s).
Proof.
  intros Hc HT Hf Hrq Hn Hup Hlen Hre.
  assert (exists place, earliestInstallable fuel (heap s) T (name pkg) = Ret place)
    as [place Hei].
  { destruct (walk_split (heap s) (name pkg) T up Hup)
      as [Hall|(pre & a & rest & n & E & Hpre & Ha & Hs)].
    - eexists. by eapply earliestInstallable_root.
    - eexists. by eapply earliestInstallable_walk. }
  assert (is_Some (heap s !! default T place)) as [p Hp].
  { destruct place as [a|]; cbn [default]; [|eauto].
    by eapply earliestInstallable_valid. }
  exists (default T place), p. split; [done|]. repeat split.
  - intros pre a rest n E Hpre Ha En.
    rewrite (earliestInstallable_walk _ _ Hc pre T up fuel a rest n) in Hei; auto.
    rewrite En in Hei. by injection Hei as <-.
  - intros pre a rest n E Hpre Ha En Hne.
    rewrite (earliestInstallable_walk _ _ Hc pre T up fuel a rest n) in Hei; auto.
    rewrite En in Hei. by injection Hei as <-.
  - intros Hall.
    rewrite (earliestInstallable_root _ _ Hc up T fuel) in Hei; auto.
    injection Hei as <-. destruct (ancestry_head _ _ _ Hup) as [l ->].
    rewrite last_cons_default. done.
  - by eapply addChild_new_eq.
Qed.

(** ** An existing node that meets the requirement *)

Lemma addChild_existing_eq `{Collaborators} fuel sp T (s : state) t pkg rq E e :
  heap s !! T = Some t ->
  fetchPackageMetadata sp (path t) = CbOk pkg ->
  requested pkg = Some rq ->
  requirementExists fuel (heap s) T (name pkg) (rangeOf pkg rq) = Ret (Some E) ->
  heap s !! E = Some e ->
  addChild fuel sp T s =
    if loaded e
    then Ret (set_heap (<[E := noteInterest T rq e]> (heap s)) s, CbOk None)
    else inflateOrReturn T E pkg
           (set_heap (<[E := set_loaded true (noteInterest T rq e)]> (heap s)) s).
Proof.
  intros HT Hf Hrq Hre HE. unfold addChild.
  rewrite (deref_Some _ _ _ HT). cbn [obind]. rewrite Hf, Hrq, Hre. cbn [obind].
  rewrite (deref_Some _ _ _ HE). cbn [obind]. done.
Qed.




Lemma derefAll_Ret (h : list node) l r :
  derefAll h l = Ret r -> Forall (fun c => h !! c.1 = Some c.2) r.
Proof.
  revert r. induction l as [|a l IH]; intros r; cbn [derefAll].
  - intros [= <-]. constructor.
  - unfold deref. destruct (h !! a) as [n|] eqn:Ha; [|done]. cbn [obind].
    destruct (derefAll h l) as [r'| |]; [|done..]. cbn [obind].
    intros [= <-]. constructor; auto.
Qed.

(** The node that [requirementExists] returns has a version in the range. *)
Lemma requirementExists_satisfied `{Collaborators} (h : list node) nm range fuel :
  forall t E e,
    requirementExists fuel h t nm range = Ret (Some E) -> h !! E = Some e ->
    versionMatch range e = true.
Proof.
  induction fuel as [|fuel IH]; intros t E e; [done|]. cbn [requirementExists].
  unfold deref. destruct (h !! t) as [n|] eqn:Ht; [|done]. cbn [obind].
  destruct (nameMatch nm n).
  { destruct (versionMatch range n) eqn:Ev; [|done]. intros [= <-] HE. congruence. }
  destruct (derefAll h (children n)) as [ks| |] eqn:Ek; [|done..]. cbn [obind].
  destruct (filter _ ks) as [|m ms] eqn:Em.
  { destruct (parent n) as [p|]; [|done]. apply IH. }
  destruct (filter _ (m :: ms)) as [|m' ms'] eqn:Em'; [done|].
  intros [= <-] HE.
  assert (Hin : m' ∈ filter (fun c => versionMatch range c.2 = true) (m :: ms))
    by (rewrite Em'; left).
  apply list_elem_of_filter in Hin as [Hv Hin].
  assert (Hks : m' ∈ ks).
  { rewrite <- Em in Hin. by apply list_elem_of_filter in Hin as [_ ?]. }
  pose proof (proj1 (Forall_forall _ _) (derefAll_Ret _ _ _ Ek) m' Hks) as Hm'.
  cbn beta in Hm'. congruence.
Qed.

(** C3.  The existing node [E] that [requirementExists] returned has a
    version [v].  If [E] has no [requested] descriptor it adopts the one of
    the resolved record when [v] satisfies the record's spec, and otherwise
    gets the descriptor with spec [v] and type "version"; then, if the spec
    of its descriptor differs from the spec of the record, the spec of the
    record is appended after a single space and the type becomes "range".
    Nothing else in the package record of [E] changes. *)
Theorem addChild_merges_requested `{Collaborators} fuel sp T (s : state) t pkg rq E e :
  heap s !! T = Some t ->
  fetchPackageMetadata sp (path t) = CbOk pkg ->
  requested pkg = Some rq ->
  requirementExists fuel (heap s) T (name pkg) (rangeOf pkg rq) = Ret (Some E) ->
  heap s !! E = Some e ->
  exists v e',
    version (package e) = Some v /\
    let adopted :=
      match requested (package e) with
      | Some mine => mine
      | None => if satisfies v (spec rq) then rq else Request v "version"
      end in
    let merged :=
      if bool_decide (spec adopted <> spec rq)
      then Request (spec adopted +:+ " " +:+ spec rq) "range"
      else adopted in
    let s1 := set_heap (<[E := e']> (heap s)) s in
    requested (package e') = Some merged /\
    set_requested None (package e') = set_requested None (package e) /\
    heap s1 !! E = Some e' /\
    addChild fuel sp T s =
      if loaded e then Ret (s1, CbOk None) else inflateOrReturn T E pkg s1.
Proof.
  intros HT Hf Hrq Hre HE.
  pose proof (requirementExists_satisfied _ _ _ _ _ _ _ Hre HE) as Hv.
  unfold versionMatch, semver_satisfies in Hv.
  destruct (version (package e)) as [v|] eqn:Ever; [|done].
  pose proof (addChild_existing_eq fuel sp T s t pkg rq E e HT Hf Hrq Hre HE) as Heq.
  assert (HEl : E < length (heap s)) by (by eapply lookup_lt_Some).
  assert (Hm : mergeRequested (package e) rq =
    let adopted :=
      match requested (package e) with
      | Some mine => mine
      | None => if satisfies v (spec rq) then rq else Request v "version"
      end in
    if bool_decide (spec adopted <> spec rq)
    then Request (spec adopted +:+ " " +:+ spec rq) "range"
    else adopted).
  { unfold mergeRequested, appendSpec, semver_satisfies. rewrite Ever. cbn zeta.
    destruct (requested (package e)) as [mine|].
    - repeat case_bool_decide; done.
    - destruct (satisfies v (spec rq)); repeat case_bool_decide; done. }
  cbn zeta in Hm.
  exists v. destruct (loaded e).
  - exists (noteInterest T rq e). split; [done|]. cbn zeta. cbn [heap set_heap].
    split; [by rewrite <- Hm|]. split; [done|].
    split; [by apply list_lookup_insert_eq|done].
  - exists (set_loaded true (noteInterest T rq e)). split; [done|]. cbn zeta.
    cbn [heap set_heap].
    split; [by rewrite <- Hm|]. split; [done|].
    split; [by apply list_lookup_insert_eq|done].
Qed.

(** ** The lockfile inflater *)

Lemma swentry_nested_ind (P : swentry -> Prop) :
  (forall ver, P (SwEntry ver None)) ->
  (forall ver d, Forall (fun e => P e.2) d -> P (SwEntry ver (Some d))) ->
  forall sw, P sw.
Proof.
  intros Hleaf Hnode. fix IH 1. intros [ver [d|]]; [|apply Hleaf].
  apply Hnode. induction d as [|e d IHd]; constructor; [apply IH|apply IHd].
Qed.




(** ** What the loaders leave alone *)

Lemma keepsTree_refl h : keepsTree h h.
Proof. intros a n Ha. eauto. Qed.

Lemma keepsTree_trans h1 h2 h3 :
  keepsTree h1 h2 -> keepsTree h2 h3 -> keepsTree h1 h3.
Proof.
  intros H12 H23 a n Ha. destruct (H12 a n Ha) as (n2 & H2 & E2 & P2).
  destruct (H23 a n2 H2) as (n3 & H3 & E3 & P3). exists n3.
  split; [done|]. split; [congruence|]. by etrans.
Qed.

Lemma keepsTree_insert (h : list node) a n n' :
  h !! a = Some n -> parent n' = parent n /\ children n `prefix_of` children n' ->
  keepsTree h (<[a := n']> h).
Proof.
  intros Ha [Hp Hc] b m Hb. destruct (decide (a = b)) as [->|Hne].
  - exists n'. rewrite list_lookup_insert_eq by (by eapply lookup_lt_Some).
    split; [done|]. split; congruence.
  - exists m. by rewrite list_lookup_insert_ne.
Qed.

Lemma keepsTree_app (h l : list node) : keepsTree h (h ++ l).
Proof. intros a n Ha. exists n. split; [|done]. by apply lookup_app_l_Some. Qed.

Lemma keepsTree_push (n : node) (c : addr) :
  parent (set_children (children n ++ [c]) n) = parent n /\
  children n `prefix_of` children (set_children (children n ++ [c]) n).
Proof. split; [done|]. by apply prefix_app_r. Qed.

Lemma asyncMap_keepsTree {A} (fn : A -> state -> outcome (state * option error)) l :
  (forall a s r, a ∈ l -> fn a s = Ret r -> keepsTree (heap s) (heap r.1)) ->
  forall s r, asyncMap fn l s = Ret r -> keepsTree (heap s) (heap r.1).
Proof.
  induction l as [|a l IH]; intros Hfn s r; cbn [asyncMap].
  - intros [= <-]. apply keepsTree_refl.
  - destruct (fn a s) as [r1| |] eqn:E1; [|done..]. cbn [obind].
    destruct (asyncMap fn l r1.1) as [r2| |] eqn:E2; [|done..]. cbn [obind].
    intros [= <-]. cbn [fst]. eapply keepsTree_trans.
    + eapply Hfn; [left|done].
    + eapply IH; [|done]. intros b s' r' Hb. apply Hfn. by right.
Qed.

Lemma inflateEntry_keepsTree `{Collaborators} (sw : swentry) :
  forall T nm s r, inflateEntry T nm sw s = Ret r -> keepsTree (heap s) (heap r.1).
Proof.
  induction sw as [ver|ver d IHd] using swentry_nested_ind; intros T nm s r;
    cbn [inflateEntry]; unfold deref;
    (destruct (heap s !! T) as [t|] eqn:HT; [|done]); cbn [obind];
    (destruct (fetchPackageMetadata _ _) as [er|pkg]; [intros [= <-]; apply keepsTree_refl|]);
    (destruct (name pkg) as [pname|]; [|done]).
  - intros [= <-]. cbn [fst heap set_heap]. eapply keepsTree_trans.
    + apply keepsTree_app.
    + eapply keepsTree_insert; [by apply lookup_app_l_Some|apply keepsTree_push].
  - intros Hr. eapply keepsTree_trans; [|eapply asyncMap_keepsTree; [|exact Hr]].
    + cbn [heap set_heap]. eapply keepsTree_trans.
      * apply keepsTree_app.
      * eapply keepsTree_insert; [by apply lookup_app_l_Some|apply keepsTree_push].
    + intros e s' r' He. cbn beta.
      apply (proj1 (Forall_forall _ _) IHd e He).
Qed.

Lemma inflateShrinkwrap_keepsTree `{Collaborators} T sw s r :
  inflateShrinkwrap T sw s = Ret r -> keepsTree (heap s) (heap r.1).
Proof.
  apply asyncMap_keepsTree. intros e s' r' _. apply inflateEntry_keepsTree.
Qed.

Lemma inflateOrReturn_keepsTree `{Collaborators} T child pkg s r :
  inflateOrReturn T child pkg s = Ret r -> keepsTree (heap s) (heap r.1).
Proof.
  unfold inflateOrReturn. destruct (shrinkwrap pkg) as [[deps|]|];
    [|intros [= <-]; apply keepsTree_refl..].
  destruct (inflateShrinkwrap child deps s) as [r1| |] eqn:E; [|done..]. cbn [obind].
  destruct (deref (heap r1.1) T); [|done..]. cbn [obind].
  intros [= <-]. cbn [fst]. by eapply inflateShrinkwrap_keepsTree.
Qed.

Lemma addChild_keepsTree `{Collaborators} fuel sp T s r :
  addChild fuel sp T s = Ret r -> keepsTree (heap s) (heap r.1).
Proof.
  unfold addChild, deref. destruct (heap s !! T) as [t|] eqn:HT; [|done]. cbn [obind].
  destruct (fetchPackageMetadata sp (path t)) as [er|pkg];
    [intros [= <-]; apply keepsTree_refl|].
  destruct (requested pkg) as [rq|]; [|done].
  destruct (requirementExists _ _ _ _ _) as [[E|]| |]; [| |done..]; cbn [obind].
  - destruct (heap s !! E) as [e|] eqn:HE; [|done]. cbn [obind].
    destruct (loaded e).
    + intros [= <-]. cbn [fst heap set_heap]. by eapply (keepsTree_insert _ _ e).
    + intros Hr. eapply keepsTree_trans; [|by eapply inflateOrReturn_keepsTree].
      cbn [heap set_heap]. by eapply (keepsTree_insert _ _ e).
  - destruct (earliestInstallable _ _ _ _) as [place| |]; [|done..]. cbn [obind].
    destruct (heap s !! default T place) as [p|] eqn:Hp; [|done]. cbn [obind].
    destruct (name pkg) as [pname|]; [|done].
    intros Hr. eapply keepsTree_trans; [|by eapply inflateOrReturn_keepsTree].
    cbn [heap set_heap]. eapply keepsTree_trans; [|apply keepsTree_app].
    eapply (keepsTree_insert _ _ p); [exact Hp|apply keepsTree_push].
Qed.

Lemma warnOnError_heap r : heap (warnOnError r).1 = heap r.1.
Proof. unfold warnOnError. by destruct r.2. Qed.

Lemma loadDep_keepsTree `{Collaborators} depLoader depth T t d s r :
  (forall c s r, depLoader c s = Ret r -> keepsTree (heap s) (heap r.1)) ->
  loadDep depLoader depth T t d s = Ret r -> keepsTree (heap s) (heap r.1).
Proof.
  intros Hdl. unfold loadDep.
  destruct (addChild _ _ _ _) as [r1| |] eqn:E1; [|done..]. cbn [obind].
  unfold asCbWithCb.
  assert (Hk : forall r', match r1.2 with
                          | CbErr er => Ret (r1.1, Some er)
                          | CbOk child => depLoader child r1.1
                          end = Ret r' -> keepsTree (heap s) (heap r'.1)).
  { intros r'. destruct r1.2.
    - intros [= <-]. by eapply addChild_keepsTree.
    - intros Hr'. eapply keepsTree_trans; [by eapply addChild_keepsTree|eauto]. }
  destruct (match r1.2 with CbErr _ => _ | CbOk _ => _ end) as [r'| |]; [|done..].
  cbn [obind]. intros [= <-].
  destruct (truthy _ _); [rewrite warnOnError_heap|]; by apply Hk.
Qed.

Lemma loadDeps_keepsTree `{Collaborators} fuel depth :
  forall c s r, loadDeps fuel depth c s = Ret r -> keepsTree (heap s) (heap r.1).
Proof.
  induction fuel as [|fuel IH]; intros [tr|] s r; cbn [loadDeps];
    try (intros [= <-]; apply keepsTree_refl); try done.
  unfold deref. destruct (heap s !! tr) as [t|]; [|done]. cbn [obind].
  destruct (dependencies (package t)) as [deps|];
    [|intros [= <-]; apply keepsTree_refl].
  apply asyncMap_keepsTree. intros d s' r' _. by apply loadDep_keepsTree.
Qed.

(** ** Development dependencies *)

(** C8, as amended.  For a dev dependency that [addChild] placed as the
    node [child], the recursive [loadDeps] runs on the tree in which the
    parent link of [child] is null.  When that load reports no error, the
    parent link of [child] is set back to what it was; when it reports an
    error, the error is passed on and the link stays null. *)
Theorem loadDevDep_detached_load `{Collaborators} fuel depth T t d
    (s s1 : state) child c :
  truthy (dependencies (package t)) d.1 = false ->
  addChild depth (d.1 +:+ "@" +:+ d.2) T s = Ret (s1, CbOk (Some child)) ->
  heap s1 !! child = Some c ->
  let sd := set_heap (<[child := set_parent None c]> (heap s1)) s1 in
  (parent <$> heap sd !! child) = Some None /\
  match loadDeps fuel depth (Some child) sd with
  | Ret (s2, None) =>
      exists c2,
        heap s2 !! child = Some c2 /\
        let s3 := set_heap (<[child := set_parent (parent c) c2]> (heap s2)) s2 in
        loadDevDep fuel depth T t d s = Ret (s3, None) /\
        (parent <$> heap s3 !! child) = Some (parent c)
  | Ret (s2, Some er) =>
      loadDevDep fuel depth T t d s = Ret (s2, Some er) /\
      (parent <$> heap s2 !! child) = Some None
  | Throw msg => loadDevDep fuel depth T t d s = Throw msg
  | Diverge => loadDevDep fuel depth T t d s = Diverge
  end.
Proof.
  intros Hdev Hadd Hc sd.
  assert (Hcl : child < length (heap s1)) by (by eapply lookup_lt_Some).
  assert (Hsd : heap sd !! child = Some (set_parent None c)).
  { unfold sd. cbn [heap set_heap]. by apply list_lookup_insert_eq. }
  split; [by rewrite Hsd|].
  assert (Hstep : loadDevDep fuel depth T t d s =
            (r2 <~ loadDeps fuel depth (Some child) sd;
             match r2.2 with
             | Some er => Ret (r2.1, Some er)
             | None => s' <~ reattach child (parent c) r2.1; Ret (s', None)
             end)).
  { unfold loadDevDep. rewrite Hdev, Hadd. cbn [obind fst snd].
    unfold detach. rewrite (deref_Some _ _ _ Hc). done. }
  destruct (loadDeps fuel depth (Some child) sd) as [[s2 [er|]]| |] eqn:Hload;
    cbn [obind fst snd] in Hstep; try done.
  - split; [done|].
    destruct (loadDeps_keepsTree _ _ _ _ _ Hload _ _ Hsd) as (c2 & Hc2 & Hp2 & _).
    cbn [fst] in Hc2. rewrite Hc2. cbn. by rewrite Hp2.
  - destruct (loadDeps_keepsTree _ _ _ _ _ Hload _ _ Hsd) as (c2 & Hc2 & Hp2 & _).
    cbn [fst] in Hc2. exists c2. split; [done|]. cbn zeta. split.
    + rewrite Hstep. unfold reattach. by rewrite (deref_Some _ _ _ Hc2).
    + cbn [heap set_heap]. rewrite list_lookup_insert_eq; [done|].
      by eapply lookup_lt_Some.
Qed.

(** ** Optional dependencies *)

(** An error that [asyncMap] reports was reported by one of the elements. *)
Lemma asyncMap_error_origin {A} (fn : A -> state -> outcome (state * option error)) l :
  forall s r er,
    asyncMap fn l s = Ret r -> r.2 = Some er ->
    exists a s1 r1, a ∈ l /\ fn a s1 = Ret r1 /\ r1.2 = Some er.
Proof.
  induction l as [|a l IH]; intros s r er; cbn [asyncMap].
  - by intros [= <-].
  - destruct (fn a s) as [r1| |] eqn:E1; [|done..]. cbn [obind].
    destruct (asyncMap fn l r1.1) as [r2| |] eqn:E2; [|done..]. cbn [obind].
    intros [= <-]. cbn [snd]. destruct r1.2 as [er1|] eqn:Eer.
    + intros [= <-]. exists a, s, r1. split; [left|done].
    + intros Her. destruct (IH _ _ _ E2 Her) as (b & s1 & rb & Hb & Hfb & Hrb).
      exists b, s1, rb. split; [by right|done].
Qed.

Lemma warnOnError_no_error r : (warnOnError r).2 = None.
Proof. unfold warnOnError. by destruct r.2. Qed.

Lemma loadDep_optional_no_error `{Collaborators} depLoader depth T t d s r :
  truthy (optionalDependencies (package t)) d.1 = true ->
  loadDep depLoader depth T t d s = Ret r -> r.2 = None.
Proof.
  intros Hopt. unfold loadDep. rewrite Hopt.
  destruct (addChild _ _ _ _) as [r1| |]; [|done..]. cbn [obind].
  destruct (asCbWithCb depLoader r1) as [r'| |]; [|done..]. cbn [obind].
  intros [= <-]. apply warnOnError_no_error.
Qed.

(** C6, as amended.  Let the dependency [d] of the node [T] have a
    non-empty range among the optional dependencies of [T].  When the
    fetcher fails to resolve [d], the failure is logged as a warning, the
    callback receives no error, and no node of the tree changes.  Whatever
    else fails while [d] is loaded, the callback receives no error, and the
    nodes that [addChild] left in the tree for [d] stay there, each with
    its parent and its children.  And an error that [loadDeps] at [T]
    reports stems from a dependency that is not optional in this sense. *)
Theorem loadDep_optional_failure `{Collaborators} fuel depth T t d (s : state) t' :
  heap s !! T = Some t' ->
  truthy (optionalDependencies (package t)) d.1 = true ->
  (forall er,
      fetchPackageMetadata (d.1 +:+ "@" +:+ d.2) (path t') = CbErr er ->
      exists s',
        loadDep (loadDeps fuel depth) depth T t d s = Ret (s', None) /\
        heap s' = heap s /\
        log s' = log s ++
          [ Warn "install" ["Couldn't install optional dependency:";
                            message (addParentToErrors t' er)]
          ; Verbose "install" [stack (addParentToErrors t' er)] ]) /\
  (forall r, loadDep (loadDeps fuel depth) depth T t d s = Ret r -> r.2 = None) /\
  (forall s1 cb r,
      addChild depth (d.1 +:+ "@" +:+ d.2) T s = Ret (s1, cb) ->
      loadDep (loadDeps fuel depth) depth T t d s = Ret r ->
      keepsTree (heap s1) (heap r.1)) /\
  (forall deps r er,
      heap s !! T = Some t -> dependencies (package t) = Some deps ->
      loadDeps (S fuel) depth (Some T) s = Ret r -> r.2 = Some er ->
      exists d', d' ∈ deps /\ truthy (optionalDependencies (package t)) d'.1 = false).
Proof.
  intros HT Hopt. split; [|split; [|split]].
  - intros er Hf. eexists. split.
    + unfold loadDep, addChild. rewrite (deref_Some _ _ _ HT). cbn [obind].
      rewrite Hf. cbn [obind asCbWithCb snd fst]. rewrite Hopt. reflexivity.
    + cbn. by rewrite <- app_assoc.
  - intros r. by apply loadDep_optional_no_error.
  - intros s1 cb r Hadd. unfold loadDep, asCbWithCb. rewrite Hadd, Hopt.
    cbn [obind fst snd]. destruct cb as [er|child].
    + cbn [obind]. intros [= <-]. rewrite warnOnError_heap. apply keepsTree_refl.
    + destruct (loadDeps fuel depth child s1) as [r'| |] eqn:Hload; cbn [obind];
        [|done..].
      intros [= <-]. rewrite warnOnError_heap.
      by eapply loadDeps_keepsTree.
  - intros deps r er HT' Hdeps Hrun Her. cbn [loadDeps] in Hrun.
    rewrite (deref_Some _ _ _ HT') in Hrun. cbn [obind] in Hrun. rewrite Hdeps in Hrun.
    destruct (asyncMap_error_origin _ _ _ _ _ Hrun Her) as (d' & s1 & r1 & Hd' & Hr1 & He1).
    exists d'. split; [done|].
    destruct (truthy (optionalDependencies (package t)) d'.1) eqn:Ht; [|done].
    rewrite (loadDep_optional_no_error _ _ _ _ _ _ _ Ht Hr1) in He1. done.
Qed.

(** ** The driver *)

Lemma chain_cons_Some runner f rest w :
  chain runner (Some f :: rest) w =
    (r <~ runner f (emit [Call f] w);
     match r.2 with
     | Some er => Ret (r.1, Some er)
     | None => chain runner rest r.1
     end).
Proof. done. Qed.

Lemma chain_cons_None runner rest w : chain runner (None :: rest) w = chain runner rest w.
Proof. done. Qed.

(** C10.  In a run without explicit args on a root without embedded
    lockfile, [thenInstall] empties the children of the ideal tree, and it
    is in that tree that dependency loading begins: [mkdir] aside, the
    first actor is [loadDeps] on the ideal tree.  In that tree no node
    meets a requirement at the root, so [addChild] at the root makes a new
    node out of the record that the fetcher resolves the spec to (the root
    has no parent; a package bearing the root's own name is left out). *)
Theorem thenInstall_resets_children `{Collaborators} `{Driver} cfg fuel depth
    node_modules staging c i (w : world) n :
  heap (st w) !! i = Some n ->
  shrinkwrap (package n) = None ->
  let n0 := set_children [] n in
  let s1 := set_heap (<[i := n0]> (heap (st w))) (st w) in
  let w1 := emit [Call (Mkdir staging)] (set_todo [] (set_st s1 w)) in
  let w2 := emit [Call (LoadDeps i)] w1 in
  heap s1 !! i = Some n0 /\ children n0 = [] /\
  thenInstall cfg fuel depth node_modules staging [] (c, i) w =
    match ext (trace w1) (Mkdir staging) with
    | Some er => Ret (w1, Some er)
    | None =>
        r <~ loadDeps fuel depth (Some i) s1;
        match r.2 with
        | Some er => Ret (set_st r.1 w2, Some er)
        | None =>
            chain (run fuel depth)
              (drop 2 (steps cfg node_modules staging [] c i (realpath n)))
              (set_st r.1 w2)
        end
    end /\
  (forall sp pkg rq pname depth',
      parent n = None ->
      fetchPackageMetadata sp (path n) = CbOk pkg ->
      requested pkg = Some rq -> name pkg = Some pname ->
      name (package n) <> Some pname ->
      addChild (S depth') sp i s1 =
        inflateOrReturn i (length (heap s1)) pkg
          (set_heap (<[i := set_children [length (heap s1)] n0]> (heap s1)
                       ++ [newChild i i n0 pkg pname]) s1)).
Proof.
  intros Hi Hsw n0 s1 w1 w2.
  assert (Hil : i < length (heap (st w))) by (by eapply lookup_lt_Some).
  assert (Hi1 : heap s1 !! i = Some n0).
  { unfold s1. cbn [heap set_heap]. by apply list_lookup_insert_eq. }
  split; [done|]. split; [done|]. split.
  - unfold thenInstall, resetIdeal. cbn [fst snd].
    rewrite (deref_Some _ _ _ Hi). cbn [obind]. rewrite Hsw.
    cbn [negb andb length bool_decide]. 
    replace (bool_decide (is_Some (@None (option swdeps)))) with false
      by (symmetry; apply bool_decide_eq_false; by intros [? ?]).
    rewrite bool_decide_eq_true_2 by done. cbn [negb andb obind].
    change (set_heap (<[i:=set_children [] n]> (heap (st w))) (st w)) with s1.
    rewrite (deref_Some _ _ _ Hi1). cbn [obind].
    unfold steps. rewrite chain_cons_Some. fold w1.
    cbn [run external obind fst snd].
    destruct (ext (trace w1) (Mkdir staging)) as [er|]; [done|].
    rewrite chain_cons_Some. fold w2. cbn [run]. unfold onTrees.
    replace (st w2) with s1 by done.
    destruct (loadDeps fuel depth (Some i) s1) as [r| |]; cbn [obind fst snd];
      [|done..].
    destruct r.2; done.
  - intros sp pkg rq pname depth' Hp Hf Hrq Hn Hne.
    assert (Hnm : nameMatch (name pkg) n0 = false).
    { unfold nameMatch. apply bool_decide_eq_false. cbn. congruence. }
    assert (Hre : requirementExists (S depth') (heap s1) i (name pkg) (rangeOf pkg rq)
                  = Ret None).
    { cbn [requirementExists]. rewrite (deref_Some _ _ _ Hi1). cbn [obind].
      rewrite Hnm. cbn. by rewrite Hp. }
    assert (Hei : earliestInstallable (S depth') (heap s1) i (name pkg) = Ret (Some i)).
    { cbn [earliestInstallable]. rewrite (deref_Some _ _ _ Hi1). cbn [obind].
      rewrite Hnm. cbn. by rewrite Hp. }
    rewrite (addChild_new_eq (S depth') sp i s1 n0 pkg rq pname (Some i) n0); done.
Qed.

(** The root hooks among the steps of [thenInstall], without explicit
    args: [preinstall], [build], [postinstall], [test] when the test phase
    is enabled, and [prepublish] when not in production mode. *)
Lemma steps_hooks_without_args cfg node_modules staging c i rp :
  omap (fun f => f ≫= hookOf) (steps cfg node_modules staging [] c i rp) =
    ["preinstall"; "build"; "postinstall"]
      ++ (if npat cfg then ["test"] else [])
      ++ (if production cfg then [] else ["prepublish"]).
Proof. destruct cfg as [g d [|] [|]]; destruct d; reflexivity. Qed.

(** C9, where the code departs from the claim.  With explicit args the
    steps of [thenInstall] still hold the root hook [prepublish] when not
    in production mode: of the five root hooks it alone is not guarded by
    the absence of args. *)
Theorem steps_hooks_with_args cfg node_modules staging a args c i rp :
  omap (fun f => f ≫= hookOf) (steps cfg node_modules staging (a :: args) c i rp) =
    if production cfg then [] else ["prepublish"].
Proof. destruct cfg as [g d [|] [|]]; destruct d; reflexivity. Qed.

(** C5, where the code departs from the claim.  When the run ends with a
    primary error and [unlock] fails as well, [unlockCB] throws a
    [ReferenceError]: nothing is logged and the callback is not called. *)
Theorem unlockCB_both_errors `{Driver} dir nm (w : world) er1 er2 :
  ext (trace w ++ [Call (Unlock dir nm)]) (Unlock dir nm) = Some er2 ->
  unlockCB dir nm (w, Some er1) = Throw "ReferenceError: namej is not defined".
Proof. intros Hu. unfold unlockCB, external. cbn. by rewrite Hu. Qed.

(** Apart from that, [unlockCB] calls [unlock] and hands on the primary
    error, or the error of [unlock] when there is no primary error. *)
Lemma unlockCB_unlocks `{Driver} dir nm (r r' : world * option error) :
  unlockCB dir nm r = Ret r' ->
  trace r'.1 = trace r.1 ++ [Call (Unlock dir nm)] /\
  r'.2 = match r.2 with
         | Some er1 => Some er1
         | None => ext (trace r.1 ++ [Call (Unlock dir nm)]) (Unlock dir nm)
         end.
Proof.
  unfold unlockCB, external. cbn.
  destruct r.2 as [er1|], (ext _ _) as [er2|]; intros [= <-]; done.
Qed.

(** Whenever [install] calls back, the last thing it did was to call
    [unlock] on [(node_modules, ".staging")]. *)
Lemma install_unlocks_last `{Collaborators} `{Driver} cfg fuel depth where_
    node_modules staging args (w : world) r :
  install cfg fuel depth where_ node_modules staging args w = Ret r ->
  last (trace r.1) = Some (Call (Unlock node_modules ".staging")).
Proof.
  unfold install.
  destruct (chain _ _ w) as [r1| |]; [|done..]. cbn [obind].
  assert (Hu : forall x, unlockCB node_modules ".staging" x = Ret r ->
                 last (trace r.1) = Some (Call (Unlock node_modules ".staging"))).
  { intros x Hx. apply unlockCB_unlocks in Hx as [-> _]. apply last_snoc. }
  destruct r1.2; [apply Hu|].
  destruct (chainLast r1.1) as [[|cur ideal]|]; [done| |done].
  destruct (thenInstall _ _ _ _ _ _ _ _) as [r2| |]; [|done..]. cbn [obind].
  apply Hu.
Qed.

(** ** The order of the phases *)


Lemma entryEvents_id l :
  Forall (fun e => isCall e = false) l -> entryEvents l = l.
Proof.
  induction 1 as [|e l He _ IH]; [done|]. unfold entryEvents.
  rewrite filter_cons_True by done. f_equal. exact IH.
Qed.

Lemma parallelBlock_entries `{Driver} phase plan :
  Forall (fun e => isCall e = false) (parallelBlock phase plan).
Proof.
  unfold parallelBlock. apply Forall_app. split; apply Forall_fmap, Forall_true; done.
Qed.

Lemma serialBlock_entries phase plan :
  Forall (fun e => isCall e = false) (serialBlock phase plan).
Proof.
  unfold serialBlock. induction (entriesOf phase plan) as [|n l IH]; cbn; auto.
Qed.

Lemma serialRun_trace `{Driver} phase l :
  forall w, exists ran,
    trace (serialRun phase l w).1 =
      trace w ++ flat_map (fun n => [Start phase n; Finish phase n]) ran /\
    ran `prefix_of` l /\
    ((serialRun phase l w).2 = None -> ran = l) /\
    todo (serialRun phase l w).1 = todo w.
Proof.
  induction l as [|n l IH]; intros w; cbn [serialRun].
  - exists []. cbn. by rewrite app_nil_r.
  - destruct (entryResult phase n) as [er|].
    + exists [n]. cbn. repeat split; [|done]. by apply prefix_cons, prefix_nil.
    + destruct (IH (emit [Start phase n; Finish phase n] w)) as (ran & Ht & Hp & Hs & Hd).
      exists (n :: ran). rewrite Ht. cbn. rewrite <- app_assoc. repeat split.
      * by apply prefix_cons.
      * intros Hn. by rewrite Hs.
      * by rewrite Hd.
Qed.

Lemma flat_map_prefix {A B} (f : A -> list B) l1 l2 :
  l1 `prefix_of` l2 -> flat_map f l1 `prefix_of` flat_map f l2.
Proof. intros [k ->]. rewrite flat_map_app. by apply prefix_app_r. Qed.

(** What one actor adds to the trace. *)
Lemma run_trace `{Collaborators} `{Driver} fuel depth f (w : world) r :
  run fuel depth f w = Ret r ->
  exists evs,
    trace r.1 = trace w ++ evs /\
    entryEvents evs `prefix_of` blockOf (todo w) f /\
    (r.2 = None -> entryEvents evs = blockOf (todo w) f) /\
    (keepsPlan f = true -> todo r.1 = todo w) /\
    (isPhase f = false -> evs = []).
Proof.
  assert (Hquiet : forall r' : world * option error,
            trace r'.1 = trace w ->
            (keepsPlan f = true -> todo r'.1 = todo w) ->
            blockOf (todo w) f = [] ->
            exists evs, trace r'.1 = trace w ++ evs /\
              entryEvents evs `prefix_of` blockOf (todo w) f /\
              (r'.2 = None -> entryEvents evs = blockOf (todo w) f) /\
              (keepsPlan f = true -> todo r'.1 = todo w) /\
              (isPhase f = false -> evs = [])).
  { intros r' Ht Hd Hb. exists []. rewrite Hb, app_nil_r. repeat split; auto. }
  assert (HonTrees : forall x, onTrees w x = Ret r -> trace r.1 = trace w /\ todo r.1 = todo w).
  { intros x. unfold onTrees. destruct x as [x| |]; [|done..]. by intros [= <-]. }
  destruct f as [dir nm|dir nm|dir|dir|where_|where_|label| |nmod stg args|tree
                |args tree|tree|tree|cur ideal| |label|phase stg|phase stg|hook dir tree];
    cbn [run]; unfold external;
    try (intros [= <-]; apply Hquiet; done);
    try (intros Hr; destruct (HonTrees _ Hr) as [Ht Hd]; apply Hquiet; done).
  - (* readPackageTree *)
    destruct (ext (trace w) (ReadPackageTree where_)); intros [= <-];
      apply Hquiet; done.
  - (* readLocalPackageData *)
    destruct (chainLast w) as [[cur|]|]; [|done..].
    destruct (readLocalPackageData where_ cur (st w)) as [x| |]; [|done..]. cbn [obind].
    destruct x.2; intros [= <-]; apply Hquiet; done.
  - (* loadShrinkwrap *)
    destruct (chainLast w) as [[cur|]|]; [|done..].
    destruct (loadShrinkwrap cur (st w)) as [x| |]; [|done..]. cbn [obind].
    intros [= <-]; apply Hquiet; done.
  - (* doParallel *)
    intros [= <-]. unfold doParallel. cbn [fst snd trace emit todo blockOf].
    eexists. split; [reflexivity|]. fold (parallelBlock phase (todo w)).
    rewrite (entryEvents_id _ (parallelBlock_entries phase (todo w))).
    repeat split; done.
  - (* doSerial *)
    intros [= <-]. unfold doSerial. cbn [blockOf].
    destruct (serialRun_trace phase (entriesOf phase (todo w)) w) as (ran & Ht & Hp & Hs & Hd).
    eexists. split; [exact Ht|].
    assert (He : entryEvents (flat_map (fun n => [Start phase n; Finish phase n]) ran)
                 = flat_map (fun n => [Start phase n; Finish phase n]) ran).
    { apply entryEvents_id. clear. induction ran; cbn; auto. }
    rewrite He. split; [by apply flat_map_prefix|]. split; [|done].
    intros Hn. unfold serialBlock. by rewrite (Hs Hn).
Qed.











(** * Runs on the demo registry *)

Section Runs.

Local Existing Instance demo.




(** In [demo_heap] the walk from node 3 for [x@2.] passes 3 and its parent
    2 and stops at the root, which has the child [x@1.0.0]: the parent of
    the new node is the last node passed, 2. *)
Lemma addChild_parent_of_new_witness :
  exists P p,
    heap demo_state !! P = Some p /\ P = 2 /\
    addChild 5 "x@2." 3 demo_state =
      Ret (set_heap (<[P := set_children (children p ++ [4]) p]> demo_heap
                       ++ [newChild 3 P p (demo_pkg "x" "2.0.0" "2." "range" None None) "x"])
                    demo_state, CbOk (Some 4)).
Proof.
  edestruct (addChild_parent_of_new 5 "x@2." 3 demo_state) with (up := [3; 2; 0])
    as (P & p & HP & _ & Hconflict & _ & Heq).
  - closed_heap.
  - reflexivity.
  - reflexivity.
  - reflexivity.
  - reflexivity.
  - upward.
  - simpl. lia.
  - vm_compute. reflexivity.
  - exists P, p. split; [exact HP|]. split; [|exact Heq].
    apply (Hconflict [3; 2] 0 [] (demo_node emptyPackage [1; 2] None true "/r")).
    + reflexivity.
    + passing.
    + reflexivity.
    + reflexivity.
    + vm_compute. discriminate.
Defined.

(** C2 as the spec states it does not hold.  In [demo_heap] no node meets
    [x@2.] for node 3, and the root, an ancestor of 3, has the conflicting
    child 1 named [x]; the new node 4 is placed under node 2, the parent of
    3, and not under 3 itself. *)
Lemma addChild_parent_counterexample :
  ancestry demo_heap 3 [3; 2; 0] /\
  requirementExists 5 demo_heap 3 (Some "x") (Some "2.") = Ret None /\
  (exists n k, demo_heap !! 0 = Some n /\ (1, k) ∈ namesakes demo_heap (Some "x") n) /\
  shape (addChild 5 "x@2." 3 demo_state)
    = Ret ([ (None, None, [1; 2], None)
           ; (Some "x", Some "1.0.0", [], Some 0)
           ; (Some "a", Some "1.0.0", [3; 4], Some 0)
           ; (Some "b", Some "1.0.0", [], Some 2)
           ; (Some "x", Some "2.0.0", [], Some 2) ], CbOk (Some 4)).
Proof.
  split; [upward|]. split; [reflexivity|]. split.
  - eexists _, _. split; [reflexivity|]. vm_compute. left.
  - vm_compute. reflexivity.
Qed.

(** The node [x@1.0.0] of [demo_heap] has no descriptor and satisfies
    [1.]: it adopts the descriptor of the record resolved for [x@1.]. *)
Lemma addChild_merges_requested_witness :
  exists v e',
    version (package (demo_node (demo_installed "x" "1.0.0") [] (Some 0) true
                                "/r/node_modules/x")) = Some v /\
    requested (package e') = Some (Request "1." "range") /\
    addChild 5 "x@1." 3 demo_state
      = Ret (set_heap (<[1 := e']> demo_heap) demo_state, CbOk None).
Proof.
  edestruct (addChild_merges_requested 5 "x@1." 3 demo_state) with (E := 1)
    as (v & e' & Hv & Hreq & _ & _ & Heq).
  - reflexivity.
  - reflexivity.
  - reflexivity.
  - vm_compute. reflexivity.
  - reflexivity.
  - exists v, e'. split; [exact Hv|]. split; [|exact Heq].
    injection Hv as <-. exact Hreq.
Defined.


(** The dev dependency [e] of a root: its dependency [x@2.] is loaded
    while [e] is detached, and [e] is then hung back under the root. *)
Lemma loadDevDep_detached_load_witness :
  exists s3,
    loadDevDep 5 5 0 (demo_node (demo_manifest None None (Some [("e", "1.")])) [] None
                                true "/r")
               ("e", "1.") (demo_root (demo_manifest None None (Some [("e", "1.")])))
      = Ret (s3, None) /\
    (parent <$> heap s3 !! 1) = Some (Some 0).
Proof.
  edestruct (loadDevDep_detached_load 5 5 0
               (demo_node (demo_manifest None None (Some [("e", "1.")])) [] None true "/r")
               ("e", "1.") (demo_root (demo_manifest None None (Some [("e", "1.")]))))
    with (child := 1) as [_ Hload].
  - reflexivity.
  - vm_compute. reflexivity.
  - reflexivity.
  - vm_compute in Hload. destruct Hload as (c2 & _ & Heq & Hp).
    eexists. split; [exact Heq|exact Hp].
Defined.

(** C8 as the spec states it does not hold.  The dev dependency [d] is
    placed under the root, node 0; loading its dependency [x@9.] fails, and
    after [loadDevDeps] has reported that error the parent link of [d] is
    null. *)
Lemma loadDevDeps_error_counterexample :
  (x <~ addChild 5 "d@1." 0 (demo_root (demo_manifest None None (Some [("d", "1.")])));
   Ret (parent <$> heap x.1 !! 1, x.2)) = Ret (Some (Some 0), CbOk (Some 1)) /\
  shape (loadDevDeps 5 5 (Some 0) (demo_root (demo_manifest None None (Some [("d", "1.")]))))
    = Ret ([ (None, None, [1], None); (Some "d", Some "1.0.0", [], None) ],
           Some (Error "404 Not Found: x@9." "" "E404")).
Proof. split; vm_compute; reflexivity. Qed.

(** The optional dependency [q] of a root does not resolve: a warning, no
    error, and the tree as it was. *)
Lemma loadDep_optional_failure_witness :
  exists s',
    loadDep (loadDeps 5 5) 5 0
            (demo_node (demo_manifest (Some [("q", "1.")]) (Some [("q", "1.")]) None) []
                       None true "/r")
            ("q", "1.")
            (demo_root (demo_manifest (Some [("q", "1.")]) (Some [("q", "1.")]) None))
      = Ret (s', None) /\
    heap s' = heap (demo_root (demo_manifest (Some [("q", "1.")]) (Some [("q", "1.")]) None)) /\
    log s' = [ Warn "install" ["Couldn't install optional dependency:"; "404 Not Found: q@1."]
             ; Verbose "install" [""] ].
Proof.
  edestruct (loadDep_optional_failure 5 5 0
               (demo_node (demo_manifest (Some [("q", "1.")]) (Some [("q", "1.")]) None) []
                          None true "/r")
               ("q", "1.")
               (demo_root (demo_manifest (Some [("q", "1.")]) (Some [("q", "1.")]) None)))
    as (Hfail & _ & _ & _).
  - reflexivity.
  - reflexivity.
  - destruct (Hfail (Error "404 Not Found: q@1." "" "E404") eq_refl)
      as (s' & Heq & Hheap & Hlog).
    exists s'. split; [exact Heq|]. split; [exact Hheap|exact Hlog].
Defined.

(** C6 as the spec states it does not hold.  The optional dependency [d]
    resolves and the load of its own dependency [x@9.] fails: no error is
    reported, and the node of [d] is in the tree.  And a dependency that
    the optional dependencies list with the empty range is not taken for
    optional: the failure to resolve it is reported. *)
Lemma loadDeps_optional_counterexample :
  shape (loadDeps 5 5 (Some 0)
           (demo_root (demo_manifest (Some [("d", "1.")]) (Some [("d", "1.")]) None)))
    = Ret ([ (None, None, [1], None); (Some "d", Some "1.0.0", [], Some 0) ], None) /\
  shape (loadDeps 5 5 (Some 0)
           (demo_root (demo_manifest (Some [("q", "")]) (Some [("q", "")]) None)))
    = Ret ([ (None, None, [], None) ], Some (Error "404 Not Found: q@" "" "E404")).
Proof. split; vm_compute; reflexivity. Qed.

(** A primary error and a failing [unlock]. *)
Lemma unlockCB_both_errors_witness :
  @unlockCB (demo_driver demo_unlock_fails) "/r/node_modules" ".staging"
     (demo_world demo_state, Some (Error "ENOENT" "" "ENOENT"))
    = Throw "ReferenceError: namej is not defined".
Proof.
  apply (@unlockCB_both_errors (demo_driver demo_unlock_fails)) with
    (er2 := Error "EUNLOCK" "" "EUNLOCK").
  reflexivity.
Defined.

(** A run of [thenInstall] on [demo_project], without args: the ideal tree
    ends with the one child [x@1.5.0], resolved anew from the range [1.],
    and not with the [x@1.0.0] cloned from the disk. *)
Lemma thenInstall_resets_children_witness :
  exists r,
    @thenInstall demo (demo_driver demo_ok) demo_config 5 5
        "/r/node_modules" "/r/node_modules/.staging" [] (0, 1) (demo_world demo_project)
      = Ret r /\
    (children <$> heap (st r.1) !! 1) = Some [4] /\
    (version <$> (package <$> heap (st r.1) !! 4)) = Some (Some "1.5.0").
Proof.
  edestruct (@thenInstall_resets_children demo (demo_driver demo_ok) demo_config 5 5
               "/r/node_modules" "/r/node_modules/.staging" 0 1 (demo_world demo_project))
    as (_ & _ & Heq & _).
  - reflexivity.
  - reflexivity.
  - rewrite Heq. vm_compute. eexists. split; [reflexivity|]. split; reflexivity.
Defined.


End Runs.

(** * Further properties of the loaders and of the driver *)

(** ** The walks up the tree *)

Lemma derefAll_Ret_kids (h : list node) l r :
  derefAll h l = Ret r -> r = omap (fun c => pair c <$> h !! c) l.
Proof.
  revert r. induction l as [|a l IH]; intros r; cbn.
  - by intros [= <-].
  - unfold deref. destruct (h !! a) as [n|]; [|done]. cbn.
    destruct (derefAll h l) as [r'| |]; [|done..]. cbn.
    intros [= <-]. by rewrite (IH r' eq_refl).
Qed.

Lemma elem_of_kids (h : list node) n c k :
  (c, k) ∈ kids h n -> h !! c = Some k /\ c ∈ children n.
Proof.
  unfold kids. rewrite list_elem_of_omap. intros (x & Hx & Hk).
  destruct (h !! x) as [k'|] eqn:E; [|done]. cbn in Hk. injection Hk as <- <-. done.
Qed.

(** X1.  The node that [requirementExists] answers bears the name asked
    for and has a version in the range asked for; it is the node the walk
    started from or one of its ancestors, or a child of one of these. *)
Theorem requirementExists_sound `{Collaborators} (h : list node) nm range fuel :
  forall t E,
    requirementExists fuel h t nm range = Ret (Some E) ->
    exists e a n,
      h !! E = Some e /\ nameMatch nm e = true /\ versionMatch range e = true /\
      above h t a /\ h !! a = Some n /\ (E = a \/ E ∈ children n).
Proof.
  induction fuel as [|fuel IH]; intros t E; [done|]. cbn [requirementExists].
  unfold deref. destruct (h !! t) as [n|] eqn:Et; [|done]. cbn [obind].
  destruct (nameMatch nm n) eqn:Hn.
  - destruct (versionMatch range n) eqn:Hv; intros [= <-].
    exists n, t, n. repeat split; try done; [constructor|by left].
  - destruct (derefAll h (children n)) as [ks| |] eqn:Hk; [|done..]. cbn [obind].
    apply derefAll_Ret_kids in Hk. fold (kids h n) in Hk. subst ks.
    destruct (filter _ (kids h n)) as [|m ms] eqn:Hf.
    + destruct (parent n) as [p|] eqn:Hp; [|done]. intros Hrec.
      destruct (IH _ _ Hrec) as (e & a & k & He & Hne & Hve & Hab & Ha & Hor).
      exists e, a, k. repeat split; try done. by eapply above_parent.
    + destruct (filter _ (m :: ms)) as [|[c k] l] eqn:Hg; [done|]. intros [= <-].
      assert (Hin : (c, k) ∈ filter (fun c : addr * node => versionMatch range c.2 = true)
                                    (m :: ms)) by (rewrite Hg; left).
      apply list_elem_of_filter in Hin as [Hv Hin]. rewrite <- Hf in Hin.
      apply list_elem_of_filter in Hin as [Hnm Hin].
      apply elem_of_kids in Hin as [Hc Hch].
      exists k, t, n. repeat split; try done; [constructor|by right].
Qed.

(** X2.  The place that [earliestInstallable] answers is the node the walk
    started from or one of its ancestors, and it bears the name or has no
    child of that name.  It answers [null] only when the node the walk
    started from has a child of that name itself. *)
Theorem earliestInstallable_sound (h : list node) nm fuel :
  forall t place,
    earliestInstallable fuel h t nm = Ret place ->
    match place with
    | Some a =>
        exists n, above h t a /\ h !! a = Some n /\
                  (nameMatch nm n = true \/ namesakes h nm n = [])
    | None =>
        exists n, h !! t = Some n /\ nameMatch nm n = false /\ namesakes h nm n <> []
    end.
Proof.
  induction fuel as [|fuel IH]; intros t place; [done|]. cbn [earliestInstallable].
  unfold deref. destruct (h !! t) as [n|] eqn:Et; [|done]. cbn [obind].
  destruct (nameMatch nm n) eqn:Hn.
  - intros [= <-]. exists n. split; [constructor|]. split; [done|by left].
  - destruct (derefAll h (children n)) as [ks| |] eqn:Hk; [|done..]. cbn [obind].
    apply derefAll_Ret_kids in Hk. fold (kids h n) in Hk. subst ks.
    fold (namesakes h nm n).
    destruct (namesakes h nm n) as [|m ms] eqn:Hf.
    + assert (Hself : exists n0, above h t t /\ h !! t = Some n0 /\
                        (nameMatch nm n0 = true \/ namesakes h nm n0 = [])).
      { exists n. split; [constructor|]. split; [done|by right]. }
      destruct (parent n) as [p|] eqn:Hp; [|by intros [= <-]].
      destruct (earliestInstallable fuel h p nm) as [r| |] eqn:Hrec; [|done..]. cbn [obind].
      intros [= <-]. destruct r as [a|]; cbn [default]; [|done].
      destruct (IH _ _ Hrec) as (k & Hab & Ha & Hor).
      exists k. split; [by eapply above_parent|done].
    + intros [= <-]. exists n. by rewrite Hf.
Qed.

(** ** Asking twice *)

(** The heap after [addChild] has hung the new node [newc] below [P]. *)
Lemma pushed_lookup (h : list node) P p newc a k :
  h !! P = Some p -> h !! a = Some k ->
  (<[P := set_children (children p ++ [length h]) p]> h ++ [newc]) !! a =
    Some (if bool_decide (a = P) then set_children (children p ++ [length h]) p else k).
Proof.
  intros HP Ha. apply lookup_lt_Some in Ha as Hlt.
  rewrite lookup_app_l by (by rewrite length_insert).
  case_bool_decide as E.
  - subst a. by apply list_lookup_insert_eq.
  - by rewrite list_lookup_insert_ne.
Qed.

Lemma pushed_new (h : list node) P n newc :
  (<[P := n]> h ++ [newc]) !! length h = Some newc.
Proof.
  rewrite lookup_app_r by (by rewrite length_insert).
  by rewrite length_insert, Nat.sub_diag.
Qed.

Lemma pushed_closed (h : list node) P p newc :
  closed h -> h !! P = Some p -> children newc = [] ->
  closed (<[P := set_children (children p ++ [length h]) p]> h ++ [newc]).
Proof.
  unfold closed. intros Hc HP Hn.
  rewrite length_app, length_insert. cbn [length].
  apply Forall_app. split.
  - apply Forall_insert.
    + eapply Forall_impl; [exact Hc|]. cbn beta. intros n Hn'.
      eapply Forall_impl; [exact Hn'|]. cbn beta. lia.
    + cbn [children set_children]. apply Forall_app. split.
      * pose proof (closed_lookup _ _ _ Hc HP) as Hp.
        eapply Forall_impl; [exact Hp|]. cbn beta. lia.
      * repeat constructor. lia.
  - repeat constructor. rewrite Hn. constructor.
Qed.

(** Children that keep their names keep a node free of namesakes. *)
Lemma namesakes_nil_names (h h1 : list node) nm l :
  (forall a k, h !! a = Some k ->
     exists k', h1 !! a = Some k' /\ name (package k') = name (package k)) ->
  Forall (fun c => c < length h) l ->
  filter (fun c : addr * node => nameMatch nm c.2 = true)
         (omap (fun c => pair c <$> h !! c) l) = [] ->
  filter (fun c : addr * node => nameMatch nm c.2 = true)
         (omap (fun c => pair c <$> h1 !! c) l) = [].
Proof.
  intros Hnames. induction l as [|a l IH]; [done|].
  intros Hl. apply Forall_cons in Hl as [Ha Hl].
  destruct (lookup_lt_is_Some_2 h a Ha) as [k Hk].
  destruct (Hnames a k Hk) as (k' & Hk' & Hnm).
  cbn [omap list_omap]. rewrite Hk, Hk'. cbn [fmap option_fmap option_map].
  rewrite !filter_cons. cbn [snd].
  assert (Hsame : nameMatch nm k' = nameMatch nm k) by (unfold nameMatch; by rewrite Hnm).
  rewrite Hsame. destruct (decide (nameMatch nm k = true)); [done|]. by apply IH.
Qed.

(** Once the new node hangs below a place [P] that the walk passed, the
    walk from the same node finds the new node. *)
Lemma requirementExists_after_push `{Collaborators} (h : list node) nm range P p newc :
  closed h -> h !! P = Some p -> nameMatch nm p = false -> namesakes h nm p = [] ->
  children newc = [] -> nameMatch nm newc = true -> versionMatch range newc = true ->
  forall fuel t place,
    requirementExists fuel h t nm range = Ret None ->
    earliestInstallable fuel h t nm = Ret place ->
    default t place = P ->
    requirementExists fuel
      (<[P := set_children (children p ++ [length h]) p]> h ++ [newc]) t nm range
    = Ret (Some (length h)).
Proof.
  intros Hc HP Hnp Hfree Hkids Hnew Hver.
  set (h1 := <[P := set_children (children p ++ [length h]) p]> h ++ [newc]).
  assert (Hc1 : closed h1) by (by apply pushed_closed).
  assert (Hnames : forall a k, h !! a = Some k ->
            exists k', h1 !! a = Some k' /\ name (package k') = name (package k)).
  { intros a k Ha. eexists. split; [by apply pushed_lookup|].
    case_bool_decide as E; [|done]. subst a. by simplify_eq. }
  assert (HP1 : h1 !! P = Some (set_children (children p ++ [length h]) p)).
  { unfold h1. rewrite (pushed_lookup h P p newc P p HP HP). by rewrite bool_decide_eq_true_2. }
  assert (Hat : forall fuel, requirementExists (S fuel) h1 P nm range = Ret (Some (length h))).
  { intros fuel.
    assert (Hns : namesakes h1 nm (set_children (children p ++ [length h]) p)
                  = [(length h, newc)]).
    { unfold namesakes, kids. cbn [children set_children].
      rewrite omap_app, filter_app.
      rewrite (namesakes_nil_names h h1 nm (children p) Hnames
                 (closed_lookup _ _ _ Hc HP) Hfree).
      cbn [omap list_omap]. unfold h1 at 1. rewrite pushed_new.
      cbn [fmap option_fmap option_map app]. rewrite filter_cons. cbn [snd].
      rewrite Hnew. by rewrite decide_True. }
    rewrite (requirementExists_stop h1 nm range fuel P _ Hc1 HP1)
      by (right; rewrite Hns; done).
    unfold answerAt. replace (nameMatch nm (set_children _ p)) with false
      by (by rewrite <- Hnp).
    rewrite Hns. unfold satisfying. rewrite filter_cons. cbn [snd].
    rewrite Hver. by rewrite decide_True. }
  induction fuel as [|fuel IH]; intros t place Hreq Hei Hdef; [done|].
  destruct (h !! t) as [n|] eqn:Ht;
    [|cbn [requirementExists] in Hreq; unfold deref in Hreq; by rewrite Ht in Hreq].
  destruct (nameMatch nm n) eqn:Hn.
  { rewrite (earliestInstallable_named h nm fuel t n Ht Hn) in Hei.
    injection Hei as <-. cbn in Hdef. subst t. congruence. }
  destruct (decide (namesakes h nm n = [])) as [Hns|Hns].
  2:{ rewrite (earliestInstallable_conflict h nm fuel t n Hc Ht Hn Hns) in Hei.
      injection Hei as <-. cbn in Hdef. subst t. congruence. }
  destruct (decide (t = P)) as [->|Hne]; [apply Hat|].
  rewrite (requirementExists_pass h nm range fuel t n Hc Ht Hn Hns) in Hreq.
  rewrite (earliestInstallable_pass h nm fuel t n Hc Ht Hn Hns) in Hei.
  assert (Ht1 : h1 !! t = Some n).
  { unfold h1. rewrite (pushed_lookup h P p newc t n HP Ht). by rewrite bool_decide_eq_false_2. }
  assert (Hns1 : namesakes h1 nm n = []).
  { apply (namesakes_nil_names h h1 nm (children n) Hnames (closed_lookup _ _ _ Hc Ht) Hns). }
  rewrite (requirementExists_pass h1 nm range fuel t n Hc1 Ht1 Hn Hns1).
  destruct (parent n) as [q|].
  - destruct (earliestInstallable fuel h q nm) as [r| |] eqn:Hr; [|done..].
    cbn [obind] in Hei. injection Hei as <-. cbn in Hdef.
    destruct r as [a|]; cbn in Hdef; [|done].
    apply (IH q (Some a)); done.
  - injection Hei as <-. by cbn in Hdef.
Qed.

(** X3.  [addChild] has made a new node for a spec and hung it below a
    place that the walk passed; the record has no pinned dependencies and
    its version is in the range asked for.  Asked again for the same spec
    from the same node, [addChild] finds that node, makes no other, calls
    back without a node, and leaves the tree as it is. *)
Theorem addChild_twice `{Collaborators} fuel sp T (s : state) t pkg rq pname place :
  closed (heap s) ->
  heap s !! T = Some t ->
  fetchPackageMetadata sp (path t) = CbOk pkg ->
  requested pkg = Some rq -> name pkg = Some pname ->
  shrinkwrap pkg = None ->
  semver_satisfies (version pkg) (rangeOf pkg rq) = true ->
  requirementExists fuel (heap s) T (name pkg) (rangeOf pkg rq) = Ret None ->
  earliestInstallable fuel (heap s) T (name pkg) = Ret place ->
  passes (heap s) (name pkg) (default T place) ->
  exists s1,
    addChild fuel sp T s = Ret (s1, CbOk (Some (length (heap s)))) /\
    length (heap s1) = S (length (heap s)) /\
    addChild fuel sp T s1 = Ret (s1, CbOk None).
Proof.
  intros Hc HT Hfetch Hrq Hname Hsw Hsat Hreq Hei (p & HP & Hnp & Hfree).
  set (P := default T place) in *. set (h := heap s) in *.
  set (newc := newChild T P p pkg pname).
  set (h1 := <[P := set_children (children p ++ [length h]) p]> h ++ [newc]).
  exists (set_heap h1 s). split; [|split].
  - rewrite (addChild_new_eq fuel sp T s t pkg rq pname place p); try done.
    unfold inflateOrReturn. by rewrite Hsw.
  - cbn [heap set_heap]. unfold h1. rewrite length_app, length_insert. cbn [length]. lia.
  - assert (HT1 : exists t1, h1 !! T = Some t1 /\ path t1 = path t).
    { eexists. split; [by apply pushed_lookup|]. case_bool_decide as E; [|done].
      rewrite E in HT. by simplify_eq. }
    destruct HT1 as (t1 & HT1 & Hpath).
    assert (Hfound : requirementExists fuel h1 T (name pkg) (rangeOf pkg rq)
                     = Ret (Some (length h))).
    { apply (requirementExists_after_push h (name pkg) (rangeOf pkg rq) P p newc)
        with (place := place); try done.
      unfold nameMatch. cbn. by rewrite bool_decide_eq_true_2. }
    assert (Hnew : h1 !! length h = Some newc) by apply pushed_new.
    rewrite (addChild_existing_eq fuel sp T (set_heap h1 s) t1 pkg rq (length h) newc);
      [| done | by rewrite Hpath | done | done | done ].
    cbn [loaded newc newChild heap set_heap].
    assert (Hid : noteInterest T rq newc = newc).
    { unfold noteInterest, newc, newChild, set_requiredby, set_package. cbn.
      unfold mergeRequested, noteRequiredby. rewrite Hrq. unfold appendSpec.
      rewrite bool_decide_eq_true_2 by done. cbn.
      rewrite decide_True by done. rewrite bool_decide_eq_false_2 by done.
      f_equal. destruct pkg. cbn in *. by subst. }
    rewrite Hid. rewrite list_insert_id by done. done.
Qed.

(** ** The three ways the loaders change the tree

    [inflateShrinkwrap] hangs a child without parent link below a node;
    [addChild] notes the interest of a node in an existing one, or hangs a
    new node below the place it chose.  A relation between heaps that
    holds across each of these holds across the loaders. *)


Section Steps.

Context `{Collaborators}.
Variable R : list node -> list node -> Prop.
Hypothesis R_refl : forall h, R h h.
Hypothesis R_trans : forall h1 h2 h3, R h1 h2 -> R h2 h3 -> R h1 h3.
Hypothesis R_inflate :
  forall (h : list node) T t pkg pname,
    h !! T = Some t -> name pkg = Some pname ->
    R h (<[T := set_children (children t ++ [length h]) t]>
           (h ++ [ {| package := pkg; children := []; parent := None;
                      requiredby := Some [T]; loaded := true;
                      path := path_join (path t) "node_modules" pname;
                      realpath := path_resolve (realpath t) "node_modules" pname |} ])).
Hypothesis R_note :
  forall (h : list node) T rq E e,
    h !! E = Some e -> is_Some (h !! T) ->
    R h (<[E := set_loaded true (noteInterest T rq e)]> h).
Hypothesis R_new :
  forall (h : list node) T P p pkg pname,
    h !! P = Some p -> is_Some (h !! T) -> name pkg = Some pname ->
    R h (<[P := set_children (children p ++ [length h]) p]> h
           ++ [newChild T P p pkg pname]).









End Steps.

(** ** What the loaders never do *)
















(** ** The shape the loaders keep *)









(** ** The nodes made from a lockfile *)





(** ** Development dependencies that need no node *)

Lemma asyncMap_idle {A} (fn : A -> state -> outcome (state * option error)) l s :
  Forall (fun a => fn a s = Ret (s, None)) l -> asyncMap fn l s = Ret (s, None).
Proof.
  induction 1 as [|a l Ha _ IH]; [done|]. cbn [asyncMap].
  rewrite Ha. cbn [obind fst]. rewrite IH. done.
Qed.

(** X7.  A development dependency that is also a dependency is skipped:
    when every development dependency of the node is one, [loadDevDeps]
    calls back without error and leaves the tree and the log as they
    are. *)
Theorem loadDevDeps_skips_dependencies `{Collaborators} fuel depth T (s : state) t devs :
  heap s !! T = Some t ->
  devDependencies (package t) = Some devs ->
  Forall (fun d => truthy (dependencies (package t)) d.1 = true) devs ->
  loadDevDeps fuel depth (Some T) s = Ret (s, None).
Proof.
  intros HT Hdevs Hall. unfold loadDevDeps, deref. rewrite HT. cbn [obind]. rewrite Hdevs.
  apply asyncMap_idle. eapply Forall_impl; [exact Hall|]. cbn beta.
  intros d Hd. unfold loadDevDep. by rewrite Hd.
Qed.


(** ** Failures that are not swallowed *)



(** ** The actors that the driver calls *)

Lemma calls_of_entries (l : list event) :
  Forall (fun e => isCall e = false) l -> filter (fun e => isCall e = true) l = [].
Proof.
  induction 1 as [|e l He _ IH]; [done|].
  rewrite filter_cons, IH. rewrite He. done.
Qed.

(** An actor adds no call of an actor to the trace. *)
Lemma run_no_calls `{Collaborators} `{Driver} fuel depth f (w : world) r :
  run fuel depth f w = Ret r ->
  exists evs, trace r.1 = trace w ++ evs /\ Forall (fun e => isCall e = false) evs.
Proof.
  intros Hrun. destruct (isPhase f) eqn:Hph.
  - destruct f; try discriminate Hph; cbn [run] in Hrun; injection Hrun as <-.
    + unfold doParallel. cbn [fst trace emit]. eexists. split; [reflexivity|].
      apply parallelBlock_entries.
    + unfold doSerial.
      destruct (serialRun_trace phase (entriesOf phase (todo w)) w) as (ran & Ht & _).
      eexists. split; [exact Ht|]. clear. induction ran; cbn; auto.
  - destruct (run_trace _ _ _ _ _ Hrun) as (evs & Ht & _ & _ & _ & Hq).
    exists evs. split; [done|]. by rewrite (Hq Hph).
Qed.

(** [chain] calls the actors in the order of the list, without the falsy
    elements, up to the first that reports an error. *)
Lemma chain_calls `{Collaborators} `{Driver} fuel depth things :
  forall (w : world) r,
    chain (run fuel depth) things w = Ret r ->
    exists evs ran,
      trace r.1 = trace w ++ evs /\
      filter (fun e => isCall e = true) evs = map Call ran /\
      ran `prefix_of` omap id things /\
      (r.2 = None -> ran = omap id things).
Proof.
  induction things as [|[f|] things IH]; intros w r.
  - intros [= <-]. exists [], []. by rewrite app_nil_r.
  - rewrite chain_cons_Some.
    destruct (run fuel depth f (emit [Call f] w)) as [r1| |] eqn:E1; [|done..].
    cbn [obind]. destruct (run_no_calls _ _ _ _ _ E1) as (evs1 & Ht1 & Hq1).
    cbn [trace emit] in Ht1. apply calls_of_entries in Hq1.
    destruct r1.2 as [er|] eqn:Er1.
    + intros [= <-]. cbn [fst snd]. exists (Call f :: evs1), [f].
      rewrite Ht1, <- app_assoc. split; [done|]. split.
      { rewrite filter_cons. cbn [isCall]. rewrite decide_True by done. by rewrite Hq1. }
      split; [|done]. cbn. by apply (prefix_app_r [f] [f]).
    + intros Hrest. destruct (IH _ _ Hrest) as (evs2 & ran2 & Ht2 & Hc2 & Hp2 & Hf2).
      exists (Call f :: evs1 ++ evs2), (f :: ran2). split.
      { rewrite Ht2, Ht1, <- !app_assoc. done. }
      split.
      { rewrite filter_cons. cbn [isCall]. rewrite decide_True by done.
        by rewrite filter_app, Hq1, Hc2. }
      split.
      * cbn. by apply (prefix_app [f]).
      * intros Hn. cbn. by rewrite (Hf2 Hn).
  - rewrite chain_cons_None. intros Hrest.
    destruct (IH _ _ Hrest) as (evs2 & ran2 & Ht2 & Hc2 & Hp2 & Hf2).
    exists evs2, ran2. done.
Qed.

(** [thenInstall] is the chain of its steps, run on the world in which the
    ideal tree has been reset or left alone. *)
Lemma thenInstall_chain `{Collaborators} `{Driver} cfg fuel depth
    node_modules staging args T (w : world) r :
  thenInstall cfg fuel depth node_modules staging args T w = Ret r ->
  exists i w',
    heap (st w) !! T.2 = Some i /\ trace w' = trace w /\
    chain (run fuel depth)
      (steps cfg node_modules staging args T.1 T.2 (realpath i)) w' = Ret r.
Proof.
  unfold thenInstall, resetIdeal, deref.
  destruct (heap (st w) !! T.2) as [i|] eqn:Hi; [|done]. cbn [obind].
  set (s1 := if _ : bool then _ else _).
  assert (Hs1 : exists i', s1 = Ret (set_heap (<[T.2 := i']> (heap (st w))) (st w)) /\
                  realpath i' = realpath i).
  { unfold s1. destruct (_ && _).
    - by exists (set_children [] i).
    - exists i. split; [|done]. rewrite list_insert_id by done. by destruct (st w). }
  destruct Hs1 as (i' & -> & Hrp). cbn [obind heap set_heap].
  rewrite list_lookup_insert_eq by (by eapply lookup_lt_Some). cbn [obind]. rewrite Hrp.
  intros Hrun. eexists i, _. split; [done|]. split; [|exact Hrun]. done.
Qed.

Lemma filter_split {A} (P : A -> Prop) `{!forall x, Decision (P x)} (l xs ys : list A) y :
  filter P l = xs ++ y :: ys ->
  exists l1 l2, l = l1 ++ y :: l2 /\ filter P l1 = xs /\ filter P l2 = ys.
Proof.
  revert xs. induction l as [|a l IH]; intros xs Hf.
  - by destruct xs.
  - rewrite filter_cons in Hf. destruct (decide (P a)) as [Ha|Ha].
    + destruct xs as [|x xs]; cbn in Hf; injection Hf as -> Hf.
      * exists [], l. split; [done|]. by split.
      * destruct (IH _ Hf) as (l1 & l2 & -> & H1 & H2).
        exists (x :: l1), l2. split; [done|]. split; [|done].
        rewrite filter_cons. by rewrite decide_True, H1.
    + destruct (IH _ Hf) as (l1 & l2 & -> & H1 & H2).
      exists (a :: l1), l2. split; [done|]. split; [|done].
      rewrite filter_cons. by rewrite decide_False.
Qed.

Lemma prefix_split {A} (ran main rest : list A) u :
  ran `prefix_of` main ++ u :: rest ->
  ran `prefix_of` main \/ exists rest', ran = main ++ u :: rest'.
Proof.
  revert ran. induction main as [|m main IH]; intros ran Hp.
  - destruct ran as [|x ran]; [left; apply prefix_nil|]. right.
    cbn in Hp. apply prefix_cons_inv_1 in Hp as Hx. subst x. by exists ran.
  - destruct ran as [|x ran]; [left; apply prefix_nil|].
    cbn in Hp. apply prefix_cons_inv_1 in Hp as Hx. subst x.
    apply prefix_cons_inv_2 in Hp. destruct (IH _ Hp) as [Hl|[rest' ->]].
    + left. by apply prefix_cons.
    + right. by exists rest'.
Qed.

(** The steps of [thenInstall] hold the release of the lock before the
    hooks of the root package. *)
Lemma steps_unlock_then_hooks cfg node_modules staging args c i rp :
  exists main hooks,
    omap id (steps cfg node_modules staging args c i rp)
      = main ++ Unlock node_modules ".staging" :: hooks /\
    Forall (fun f => hookOf f = None) main.
Proof.
  unfold steps.
  exists (omap id (take 20 (steps cfg node_modules staging args c i rp))),
         (omap id (drop 21 (steps cfg node_modules staging args c i rp))).
  unfold steps.
  destruct (negb (bool_decide (length args = 0))), (dev cfg || negb (production cfg)),
    (npat cfg), (production cfg); cbn; (split; [reflexivity|repeat constructor]).
Qed.

(** X10.  [thenInstall] calls the actors of its steps in the order of the
    array, without the falsy elements and the holes, up to the first actor
    that reports an error; without error it has called them all. *)
Theorem thenInstall_calls `{Collaborators} `{Driver} cfg fuel depth
    node_modules staging args T (w : world) r :
  thenInstall cfg fuel depth node_modules staging args T w = Ret r ->
  exists i evs ran,
    heap (st w) !! T.2 = Some i /\
    trace r.1 = trace w ++ evs /\
    filter (fun e => isCall e = true) evs = map Call ran /\
    ran `prefix_of` omap id (steps cfg node_modules staging args T.1 T.2 (realpath i)) /\
    (r.2 = None ->
     ran = omap id (steps cfg node_modules staging args T.1 T.2 (realpath i))).
Proof.
  intros Hrun. destruct (thenInstall_chain _ _ _ _ _ _ _ _ _ Hrun) as (i & w' & Hi & Hw & Hch).
  destruct (chain_calls _ _ _ _ _ Hch) as (evs & ran & Ht & Hc & Hp & Hf).
  exists i, evs, ran. rewrite <- Hw. done.
Qed.

(** X11.  [thenInstall] runs no hook of the root package before it has
    called [unlock]: when a hook was called, the events up to a call of
    [unlock] on [(node_modules, ".staging")] hold no call of a hook. *)
Theorem thenInstall_hooks_after_unlock `{Collaborators} `{Driver} cfg fuel depth
    node_modules staging args T (w : world) r evs hook dir tree :
  thenInstall cfg fuel depth node_modules staging args T w = Ret r ->
  trace r.1 = trace w ++ evs ->
  Call (Action hook dir tree) ∈ evs ->
  exists l1 l2,
    evs = l1 ++ Call (Unlock node_modules ".staging") :: l2 /\
    forall hook' dir' tree', Call (Action hook' dir' tree') ∉ l1.
Proof.
  intros Hrun Hevs Hin.
  destruct (thenInstall_chain _ _ _ _ _ _ _ _ _ Hrun) as (i & w' & Hi & Hw & Hch).
  destruct (chain_calls _ _ _ _ _ Hch) as (evs' & ran & Ht & Hc & Hp & _).
  rewrite Hw, Hevs in Ht. apply app_inv_head in Ht. subst evs'.
  destruct (steps_unlock_then_hooks cfg node_modules staging args T.1 T.2 (realpath i))
    as (main & hooks & Hsteps & Hmain).
  rewrite Hsteps in Hp.
  assert (Hnone : forall l f, filter (fun e => isCall e = true) l = map Call f ->
            Forall (fun g => hookOf g = None) f ->
            forall hook' dir' tree', Call (Action hook' dir' tree') ∉ l).
  { intros l f Hl Hf hook' dir' tree' Hx.
    assert (Hx' : Call (Action hook' dir' tree') ∈ filter (fun e => isCall e = true) l)
      by (by apply list_elem_of_filter).
    rewrite Hl in Hx'. apply list_elem_of_fmap in Hx' as (g & [= <-] & Hg).
    by apply (proj1 (Forall_forall _ _) Hf) in Hg. }
  destruct (prefix_split _ _ _ _ Hp) as [[k Hk]|[rest' ->]].
  - exfalso. apply (Hnone evs ran Hc) in Hin; [done|].
    rewrite Hk in Hmain. by apply Forall_app in Hmain as [? _].
  - rewrite map_app in Hc. cbn [map] in Hc.
    destruct (filter_split _ _ _ _ _ Hc) as (l1 & l2 & -> & H1 & _).
    exists l1, l2. split; [done|]. by apply (Hnone l1 main).
Qed.

(** ** The lock around an install *)


(** X13.  When the lock cannot be taken, [install] reads no tree and
    calls no other actor: it calls [unlock] and, when that succeeds, hands
    the error of [lock] to its callback, the trees being as they were. *)
Theorem install_lock_failure `{Collaborators} `{Driver} cfg fuel depth where_
    node_modules staging args (w : world) er :
  ext (trace w ++ [Call (Lock node_modules ".staging")]) (Lock node_modules ".staging")
    = Some er ->
  ext (trace w ++ [Call (Lock node_modules ".staging")]
               ++ [Call (Unlock node_modules ".staging")])
      (Unlock node_modules ".staging") = None ->
  install cfg fuel depth where_ node_modules staging args w =
    Ret (emit [Call (Lock node_modules ".staging"); Call (Unlock node_modules ".staging")] w,
         Some er).
Proof.
  intros Hlock Hunlock. unfold install. rewrite chain_cons_Some. cbn [run].
  unfold external at 1. cbn [obind fst snd trace emit]. rewrite Hlock. cbn [obind snd fst].
  unfold unlockCB, external. cbn [fst snd trace emit]. rewrite <- app_assoc, Hunlock.
  unfold emit. cbn. by rewrite <- app_assoc.
Qed.



(** ** A namesake among the children of the requirer *)

(** Children that keep their names are the same namesakes. *)
Lemma namesakes_names (h h1 : list node) nm l :
  (forall a k, h !! a = Some k ->
     exists k', h1 !! a = Some k' /\ name (package k') = name (package k)) ->
  Forall (fun c => c < length h) l ->
  (filter (fun c : addr * node => nameMatch nm c.2 = true)
          (omap (fun c => pair c <$> h1 !! c) l)).*1 =
  (filter (fun c : addr * node => nameMatch nm c.2 = true)
          (omap (fun c => pair c <$> h !! c) l)).*1.
Proof.
  intros Hnames. induction l as [|a l IH]; [done|].
  intros Hl. apply Forall_cons in Hl as [Ha Hl].
  destruct (lookup_lt_is_Some_2 h a Ha) as [k Hk].
  destruct (Hnames a k Hk) as (k' & Hk' & Hnm).
  cbn [omap list_omap]. rewrite Hk, Hk'. cbn [fmap option_fmap option_map].
  rewrite !filter_cons. cbn [snd].
  assert (Hsame : nameMatch nm k' = nameMatch nm k) by (unfold nameMatch; by rewrite Hnm).
  rewrite Hsame. destruct (decide (nameMatch nm k = true)); cbn; by rewrite IH.
Qed.

(** X16.  The node that asks does not bear the name, has a child that
    does, and none of its children of that name has a version in the
    range: [addChild] hangs the new node below the node that asks, beside
    those children, so that one more child of that node bears the name. *)
Theorem addChild_beside_namesake `{Collaborators} fuel sp T (s : state) t pkg rq pname :
  closed (heap s) ->
  heap s !! T = Some t ->
  fetchPackageMetadata sp (path t) = CbOk pkg ->
  requested pkg = Some rq -> name pkg = Some pname ->
  shrinkwrap pkg = None ->
  nameMatch (name pkg) t = false ->
  namesakes (heap s) (name pkg) t <> [] ->
  satisfying (rangeOf pkg rq) (namesakes (heap s) (name pkg) t) = [] ->
  exists s1 t1,
    addChild (S fuel) sp T s = Ret (s1, CbOk (Some (length (heap s)))) /\
    heap s1 !! T = Some t1 /\
    children t1 = children t ++ [length (heap s)] /\
    heap s1 !! length (heap s) = Some (newChild T T t pkg pname) /\
    (namesakes (heap s1) (name pkg) t1).*1 =
      (namesakes (heap s) (name pkg) t).*1 ++ [length (heap s)].
Proof.
  intros Hc HT Hfetch Hrq Hname Hsw Hnt Hns Hsat.
  set (h := heap s) in *. set (newc := newChild T T t pkg pname).
  set (t1 := set_children (children t ++ [length h]) t).
  set (h1 := <[T := t1]> h ++ [newc]).
  assert (Hreq : requirementExists (S fuel) h T (name pkg) (rangeOf pkg rq) = Ret None).
  { rewrite (requirementExists_stop h _ _ fuel T t Hc HT) by (by right).
    unfold answerAt. rewrite Hnt. by rewrite Hsat. }
  assert (Hei : earliestInstallable (S fuel) h T (name pkg) = Ret None)
    by (by apply (earliestInstallable_conflict h _ fuel T t)).
  assert (HT1 : h1 !! T = Some t1).
  { unfold h1, t1. rewrite (pushed_lookup h T t newc T t HT HT).
    by rewrite bool_decide_eq_true_2. }
  exists (set_heap h1 s), t1. split; [|split; [|split; [|split]]].
  - rewrite (addChild_new_eq (S fuel) sp T s t pkg rq pname None t); try done.
    unfold inflateOrReturn. by rewrite Hsw.
  - done.
  - done.
  - apply pushed_new.
  - cbn [heap set_heap]. unfold namesakes, kids. cbn [children t1 set_children].
    rewrite omap_app, filter_app, fmap_app. f_equal.
    + apply namesakes_names; [|by eapply closed_lookup].
      intros a k Ha. eexists. split; [by apply pushed_lookup|].
      case_bool_decide as E; [|done]. subst a. by simplify_eq.
    + cbn [omap list_omap]. unfold h1 at 1. rewrite pushed_new.
      cbn [fmap option_fmap option_map]. rewrite filter_cons. cbn [snd].
      rewrite decide_True; [done|]. unfold nameMatch. cbn. by rewrite bool_decide_eq_true_2.
Qed.

(** ** The walks and [addChild] call back *)

(** X17.  In a tree whose children references point to nodes and where the
    chain of parents above the node that asks ends, [addChild] calls back
    once the walks are given the length of that chain as fuel, for every
    spec that the fetcher resolves to a record that has a [requested]
    descriptor and a name and pins no dependencies. *)
Theorem addChild_calls_back `{Collaborators} fuel sp T (s : state) t pkg rq pname up :
  closed (heap s) ->
  heap s !! T = Some t ->
  ancestry (heap s) T up -> length up <= fuel ->
  fetchPackageMetadata sp (path t) = CbOk pkg ->
  requested pkg = Some rq -> name pkg = Some pname ->
  shrinkwrap pkg = None ->
  exists s1 child, addChild fuel sp T s = Ret (s1, CbOk child).
Proof.
  intros Hc HT Hup Hfuel Hfetch Hrq Hname Hsw.
  assert (Hwalk : exists found,
            requirementExists fuel (heap s) T (name pkg) (rangeOf pkg rq) = Ret found).
  { destruct (walk_split _ (name pkg) _ _ Hup) as [Hall|(pre & a & rest & n & -> & Hpre & Ha & Hor)].
    - eexists. by eapply requirementExists_root.
    - eexists. by eapply requirementExists_walk. }
  destruct Hwalk as [[E|] Hreq].
  - destruct (requirementExists_sound _ _ _ _ _ _ Hreq) as (e & _ & _ & HE & _).
    rewrite (addChild_existing_eq fuel sp T s t pkg rq E e); try done.
    destruct (loaded e); [by eexists _, _|].
    unfold inflateOrReturn. rewrite Hsw. by eexists _, _.
  - assert (Hplace : exists place,
              earliestInstallable fuel (heap s) T (name pkg) = Ret place).
    { destruct (walk_split _ (name pkg) _ _ Hup)
        as [Hall|(pre & a & rest & n & -> & Hpre & Ha & Hor)].
      - eexists. by eapply earliestInstallable_root.
      - eexists. by eapply earliestInstallable_walk. }
    destruct Hplace as [place Hei].
    assert (HP : is_Some (heap s !! default T place)).
    { destruct place as [a|]; cbn; [by eapply earliestInstallable_valid|by eexists]. }
    destruct HP as [p HP].
    rewrite (addChild_new_eq fuel sp T s t pkg rq pname place p); try done.
    unfold inflateOrReturn. rewrite Hsw. by eexists _, _.
Qed.

(** ** The loaders that the driver calls *)

(** X18.  [thenInstall] calls [loadDevDeps] only when [dev] is set or
    [production] is not, and [loadArgs] only when there are args, and then
    with these args. *)
Theorem thenInstall_loaders `{Collaborators} `{Driver} cfg fuel depth
    node_modules staging args T (w : world) r evs :
  thenInstall cfg fuel depth node_modules staging args T w = Ret r ->
  trace r.1 = trace w ++ evs ->
  (forall t, Call (LoadDevDeps t) ∈ evs -> dev cfg || negb (production cfg) = true) /\
  (forall a t, Call (LoadArgs a t) ∈ evs -> args <> [] /\ a = args).
Proof.
  intros Hrun Hevs.
  destruct (thenInstall_chain _ _ _ _ _ _ _ _ _ Hrun) as (i & w' & Hi & Hw & Hch).
  destruct (chain_calls _ _ _ _ _ Hch) as (evs' & ran & Ht & Hc & [k Hk] & _).
  rewrite Hw, Hevs in Ht. apply app_inv_head in Ht. subst evs'.
  assert (Hcalled : forall f, Call f ∈ evs ->
            f ∈ omap id (steps cfg node_modules staging args T.1 T.2 (realpath i))).
  { intros f Hf.
    assert (Hf' : Call f ∈ filter (fun e => isCall e = true) evs)
      by (by apply list_elem_of_filter).
    rewrite Hc in Hf'. apply list_elem_of_fmap in Hf' as (g & [= <-] & Hg).
    rewrite Hk. apply elem_of_app. by left. }
  split.
  - intros t Ht. apply Hcalled in Ht. unfold steps in Ht.
    destruct (dev cfg || negb (production cfg)); [done|]. exfalso.
    apply list_elem_of_In in Ht.
    destruct (negb (bool_decide (length args = 0))), (npat cfg), (production cfg);
      cbn in Ht; intuition congruence.
  - intros a t Ha. apply Hcalled in Ha. unfold steps in Ha.
    apply list_elem_of_In in Ha. destruct args as [|x args].
    + exfalso. rewrite bool_decide_eq_true_2 in Ha by done.
      destruct (dev cfg || negb (production cfg)), (npat cfg), (production cfg);
        cbn in Ha; intuition congruence.
    + split; [done|]. rewrite bool_decide_eq_false_2 in Ha by done.
      destruct (dev cfg || negb (production cfg)), (npat cfg), (production cfg);
        cbn in Ha; intuition congruence.
Qed.


(** ** The nodes that the loaders make *)










(** ** Runs on the demo registry *)

Section FurtherRuns.

Local Existing Instance demo.

(** In the tree of the runs the node [b] finds [x@1.0.0], a child of the
    root, for the range [1.]. *)
Lemma requirementExists_sound_witness :
  exists e a n,
    demo_heap !! 1 = Some e /\ nameMatch (Some "x") e = true /\
    versionMatch (Some "1.") e = true /\
    above demo_heap 3 a /\ demo_heap !! a = Some n /\ (1 = a \/ 1 ∈ children n).
Proof.
  apply (requirementExists_sound demo_heap (Some "x") (Some "1.") 5 3 1).
  vm_compute. reflexivity.
Defined.

(** From [b] the place for another [x] is [a]: the root above it has a
    child [x]. *)
Lemma earliestInstallable_sound_witness :
  exists n, above demo_heap 3 2 /\ demo_heap !! 2 = Some n /\
            (nameMatch (Some "x") n = true \/ namesakes demo_heap (Some "x") n = []).
Proof.
  apply (earliestInstallable_sound demo_heap (Some "x") 5 3 (Some 2)).
  vm_compute. reflexivity.
Defined.

(** [b] asks for [x@2.] twice: the first call hangs [x@2.0.0] below [a] as
    the node 4, the second changes nothing. *)
Lemma addChild_twice_witness :
  exists s1,
    addChild 5 "x@2." 3 demo_state = Ret (s1, CbOk (Some 4)) /\
    length (heap s1) = 5 /\
    addChild 5 "x@2." 3 s1 = Ret (s1, CbOk None).
Proof.
  apply (addChild_twice 5 "x@2." 3 demo_state
           (demo_node (demo_installed "b" "1.0.0") [] (Some 2) true
                      "/r/node_modules/a/node_modules/b")
           (demo_pkg "x" "2.0.0" "2." "range" None None) (Request "2." "range") "x"
           (Some 2)).
  - closed_heap.
  - reflexivity.
  - reflexivity.
  - reflexivity.
  - reflexivity.
  - reflexivity.
  - vm_compute. reflexivity.
  - vm_compute. reflexivity.
  - vm_compute. reflexivity.
  - eexists. split; [reflexivity|]. split; vm_compute; reflexivity.
Defined.




(** The root lists [x] among its dependencies and among its development
    dependencies: nothing is done. *)
Lemma loadDevDeps_skips_dependencies_witness :
  loadDevDeps 5 5 (Some 0)
    (demo_root (demo_manifest (Some [("x", "1.")]) None (Some [("x", "2.")])))
  = Ret (demo_root (demo_manifest (Some [("x", "1.")]) None (Some [("x", "2.")])), None).
Proof.
  eapply (loadDevDeps_skips_dependencies 5 5 0); [reflexivity|reflexivity|].
  repeat constructor.
Defined.



(** A run of [thenInstall] without error calls the twenty-three actors
    of its steps. *)
Lemma thenInstall_calls_witness :
  exists r i evs ran,
    @thenInstall demo (demo_driver demo_ok) demo_config 5 5
        "/r/node_modules" "/r/node_modules/.staging" [] (0, 1) (demo_world demo_project)
      = Ret r /\
    heap demo_project !! 1 = Some i /\
    trace r.1 = evs /\
    filter (fun e => isCall e = true) evs = map Call ran /\
    ran = omap id (steps demo_config "/r/node_modules" "/r/node_modules/.staging" []
                         0 1 (realpath i)) /\
    length ran = 23.
Proof.
  destruct (@thenInstall demo (demo_driver demo_ok) demo_config 5 5
              "/r/node_modules" "/r/node_modules/.staging" [] (0, 1)
              (demo_world demo_project)) as [r| |] eqn:Hrun.
  - destruct (@thenInstall_calls demo (demo_driver demo_ok) _ _ _ _ _ _ _ _ _ Hrun)
      as (i & evs & ran & Hi & Ht & Hc & _ & Hfull).
    exists r, i, evs, ran. split; [reflexivity|]. split; [exact Hi|].
    split; [exact Ht|]. split; [exact Hc|].
    assert (Hok : r.2 = None) by (vm_compute in Hrun; injection Hrun as <-; reflexivity).
    rewrite (Hfull Hok). cbn in Hi. injection Hi as <-. split; reflexivity.
  - vm_compute in Hrun. discriminate Hrun.
  - vm_compute in Hrun. discriminate Hrun.
Defined.

(** In that run the hook [prepublish] of the root package is called, after
    the lock has been released. *)
Lemma thenInstall_hooks_after_unlock_witness :
  exists r l1 l2,
    @thenInstall demo (demo_driver demo_ok) demo_config 5 5
        "/r/node_modules" "/r/node_modules/.staging" [] (0, 1) (demo_world demo_project)
      = Ret r /\
    trace r.1 = l1 ++ Call (Unlock "/r/node_modules" ".staging") :: l2 /\
    Call (Action "prepublish" "/r" 1) ∈ trace r.1 /\
    forall hook' dir' tree', Call (Action hook' dir' tree') ∉ l1.
Proof.
  destruct (@thenInstall demo (demo_driver demo_ok) demo_config 5 5
              "/r/node_modules" "/r/node_modules/.staging" [] (0, 1)
              (demo_world demo_project)) as [r| |] eqn:Hrun.
  - assert (Hin : Call (Action "prepublish" "/r" 1) ∈ trace r.1).
    { vm_compute in Hrun. injection Hrun as <-. cbn [fst trace].
      apply list_elem_of_In. apply in_rev. cbn. by left. }
    destruct (@thenInstall_hooks_after_unlock demo (demo_driver demo_ok) _ _ _ _ _ _ _ _ _
                (trace r.1) "prepublish" "/r" 1 Hrun eq_refl Hin) as (l1 & l2 & Hsplit & Hno).
    exists r, l1, l2. done.
  - vm_compute in Hrun. discriminate Hrun.
  - vm_compute in Hrun. discriminate Hrun.
Defined.


(** The lock is held by another install. *)
Lemma install_lock_failure_witness :
  @install demo (demo_driver demo_lock_fails) demo_config 5 5 "/r"
      "/r/node_modules" "/r/node_modules/.staging" [] (demo_world demo_project)
  = Ret (World demo_project [] []
               [ Call (Lock "/r/node_modules" ".staging")
               ; Call (Unlock "/r/node_modules" ".staging") ],
         Some (Error "EEXIST" "" "EEXIST")).
Proof.
  apply (@install_lock_failure demo (demo_driver demo_lock_fails)); reflexivity.
Defined.



(** The root of the runs has the child [x@1.0.0] and asks for [x@2.]: it
    gets a second child [x]. *)
Lemma addChild_beside_namesake_witness :
  exists s1 t1,
    addChild 5 "x@2." 0 demo_state = Ret (s1, CbOk (Some 4)) /\
    heap s1 !! 0 = Some t1 /\
    children t1 = [1; 2; 4] /\
    (namesakes (heap s1) (Some "x") t1).*1 = [1; 4].
Proof.
  destruct (addChild_beside_namesake 4 "x@2." 0 demo_state
              (demo_node emptyPackage [1; 2] None true "/r")
              (demo_pkg "x" "2.0.0" "2." "range" None None) (Request "2." "range") "x")
    as (s1 & t1 & Hrun & Ht1 & Hch & _ & Hns).
  - closed_heap.
  - reflexivity.
  - reflexivity.
  - reflexivity.
  - reflexivity.
  - reflexivity.
  - reflexivity.
  - vm_compute. discriminate.
  - vm_compute. reflexivity.
  - exists s1, t1. split; [exact Hrun|]. split; [exact Ht1|]. split; [exact Hch|exact Hns].
Defined.

(** [b] asks for [x@2.] with the fuel 3, the length of its chain of
    parents. *)
Lemma addChild_calls_back_witness :
  exists s1 child, addChild 3 "x@2." 3 demo_state = Ret (s1, CbOk child).
Proof.
  apply (addChild_calls_back 3 "x@2." 3 demo_state
           (demo_node (demo_installed "b" "1.0.0") [] (Some 2) true
                      "/r/node_modules/a/node_modules/b")
           (demo_pkg "x" "2.0.0" "2." "range" None None) (Request "2." "range") "x"
           [3; 2; 0]).
  - closed_heap.
  - reflexivity.
  - upward.
  - cbn. lia.
  - reflexivity.
  - reflexivity.
  - reflexivity.
  - reflexivity.
Defined.

(** In production mode the development dependency [e] of the root is not
    loaded: the ideal tree holds the dependency [x] alone. *)
Lemma thenInstall_loaders_witness :
  exists r,
    @thenInstall demo (demo_driver demo_ok) (Config false false true false) 5 5
        "/r/node_modules" "/r/node_modules/.staging" [] (0, 0)
        (demo_world (demo_root (demo_manifest (Some [("x", "1.")]) None
                                              (Some [("e", "1.")])))) = Ret r /\
    r.2 = None /\ length (heap (st r.1)) = 2 /\
    forall t, Call (LoadDevDeps t) ∉ trace r.1.
Proof.
  destruct (@thenInstall demo (demo_driver demo_ok) (Config false false true false) 5 5
              "/r/node_modules" "/r/node_modules/.staging" [] (0, 0)
              (demo_world (demo_root (demo_manifest (Some [("x", "1.")]) None
                                                    (Some [("e", "1.")])))))
    as [r| |] eqn:Hrun.
  - exists r. split; [reflexivity|].
    split; [vm_compute in Hrun; injection Hrun as <-; reflexivity|].
    split; [vm_compute in Hrun; injection Hrun as <-; reflexivity|].
    intros t Hin.
    destruct (@thenInstall_loaders demo (demo_driver demo_ok) _ _ _ _ _ _ _ _ _
                (trace r.1) Hrun eq_refl) as [Hdev _].
    specialize (Hdev t Hin). discriminate Hdev.
  - vm_compute in Hrun. discriminate Hrun.
  - vm_compute in Hrun. discriminate Hrun.
Defined.




End FurtherRuns.
